(** * Website.py: the guestbook's in-memory cache, its poller and its handlers

    A shallow embedding of [src/Website.py].  Python values are modelled as
    follows.

    - [str] is a list of Unicode code points ([pystr]); [len] is the length
      of that list and [str.strip] removes the code points for which
      [str.isspace] holds.
    - [os.environ] and [request.form] are finite maps from keys to [str].
    - [int] is [Z].  The modification time of the database file is only
      compared for equality, so it is a [Z] as well.
    - The module-level names [_entries_cache], [_last_id], [_last_mtime] and
      [_poller_started] are the fields of the record [Globals].
    - The table [entries] is the list of its rows; a SELECT sorts and
      filters that list, an INSERT appends to it.
    - Every function is a program in the monad [Thread]: a sequence of atomic
      actions on the process state that may return, raise, or start a
      thread.  [run] executes a program without interruption; [pool_step]
      interleaves the atomic actions of several threads.

    Left out: the secret key and the call of Talisman (lines 16 and 35-46),
    the rate limiter (lines 49 and 176), the parsing of
    GUESTBOOK_POLL_INTERVAL (the interval is a parameter), the creation of
    the table (the table is there), the rendering of the template, the
    block under [__main__], and [conn.close()], which changes nothing that
    is modelled. *)

From stdpp Require Import base list gmap strings sorting.
From Stdlib Require Import ZArith Lia.

Local Open Scope Z_scope.

(** ** Python strings *)

Definition pystr : Type := list N.

Fixpoint py (s : string) : pystr :=
  match s with
  | EmptyString => []
  | String a s' => Ascii.N_of_ascii a :: py s'
  end.

(** [str.isspace] for one code point: the characters [str.strip] with no
    argument removes. *)
Definition isspace (c : N) : bool :=
  ((9 <=? c) && (c <=? 13) || (28 <=? c) && (c <=? 32)
   || (c =? 133) || (c =? 160) || (c =? 5760)
   || (8192 <=? c) && (c <=? 8202)
   || (c =? 8232) || (c =? 8233) || (c =? 8239) || (c =? 8287)
   || (c =? 12288))%N.

Fixpoint lstrip (s : pystr) : pystr :=
  match s with
  | [] => []
  | c :: s' => if isspace c then lstrip s' else s
  end.

Definition rstrip (s : pystr) : pystr := rev (lstrip (rev s)).

Definition strip (s : pystr) : pystr := rstrip (lstrip s).

(** [a or b] on strings: the empty string is the only false one. *)
Definition str_or (a b : pystr) : pystr :=
  match a with
  | [] => b
  | _ :: _ => a
  end.

(** [d.get(key, default)] for [os.environ] and [request.form]. *)
Definition get (d : gmap string pystr) (key : string) (dflt : pystr) : pystr :=
  default dflt (d !! key).

(** ** Configuration (lines 86-88) *)

Definition ENABLE_POLLER (environ : gmap string pystr) : bool :=
  bool_decide (get environ "GUESTBOOK_ENABLE_POLLER" (py "1") = py "1").

Definition USE_CACHE (environ : gmap string pystr) : bool :=
  bool_decide (get environ "GUESTBOOK_USE_CACHE" (py "1") = py "1").

(** ** The persistent store

    The table [entries] of [init_db] (lines 61-74): [id INTEGER PRIMARY KEY
    AUTOINCREMENT] and three text columns.  [sqlite_sequence] is the counter
    SQLite keeps for an AUTOINCREMENT key. *)

Record Entry : Type := mkEntry {
  id : Z;
  name : pystr;
  message : pystr;
  created_at : pystr
}.

#[global] Instance Entry_eq_dec : EqDecision Entry.
Proof. solve_decision. Defined.

Record Table : Type := mkTable {
  entries : list Entry;
  sqlite_sequence : Z
}.

Definition empty_table : Table := mkTable [] 0.

Definition ids (l : list Entry) : list Z := id <$> l.

Definition max_id (l : list Entry) : Z := foldr Z.max 0 (ids l).

(** [ORDER BY id DESC] *)
Definition id_desc (a b : Entry) : Prop := id b <= id a.

#[global] Instance id_desc_dec a b : Decision (id_desc a b) := Z_le_dec (id b) (id a).

Definition order_by_id_desc (l : list Entry) : list Entry := merge_sort id_desc l.

(** The two SELECT statements of the program. *)
Inductive Select : Type :=
| NewestFirst (limit : nat)   (* ... ORDER BY id DESC LIMIT limit *)
| NewerThan (last : Z).       (* ... WHERE id > last ORDER BY id DESC *)

Definition select (q : Select) (t : Table) : list Entry :=
  match q with
  | NewestFirst limit => take limit (order_by_id_desc (entries t))
  | NewerThan last => order_by_id_desc (filter (λ e, last < id e) (entries t))
  end.

(** [INSERT INTO entries (name, message, created_at) VALUES (?, ?, ?)]: the
    new id is one more than the largest id the table has ever held. *)
Definition insert_row (n m c : pystr) (t : Table) : Table * Z :=
  let k := Z.max (max_id (entries t)) (sqlite_sequence t) + 1 in
  (mkTable (entries t ++ [mkEntry k n m c]) k, k).

(** ** The process and what surrounds it *)

Inductive DbStatus : Type :=
| DbUp
| DbConnectFails     (* sqlite3.connect raises *)
| DbExecuteFails.    (* conn.execute raises *)

#[global] Instance DbStatus_eq_dec : EqDecision DbStatus.
Proof. solve_decision. Defined.

(** What the process does not control: the database file, whether it can
    be opened and queried, the modification time [DB_PATH.stat()] reports
    ([None]: the call raises [OSError]) and the clock. *)
Record World : Type := mkWorld {
  db : Table;
  db_status : DbStatus;
  st_mtime : option Z;
  utcnow : pystr
}.

(** Module-level state, lines 90-93 and 145. *)
Record Globals : Type := mkGlobals {
  _entries_cache : list Entry;
  _last_id : Z;
  _last_mtime : option Z;
  _poller_started : bool
}.

Definition init_globals : Globals := mkGlobals [] 0 None false.

(** The exceptions the modelled calls raise; all are subclasses of
    [Exception]. *)
Inductive Exn : Type :=
| OSError
| OperationalError
| UnboundLocalError
| ValueError.

#[global] Instance Exn_eq_dec : EqDecision Exn.
Proof. solve_decision. Defined.

Inductive Sql : Type :=
| SqlSelect (q : Select)
| SqlInsert (n m c : pystr).

(** What the process is seen to do, newest event first. *)
Inductive Event : Type :=
| EvSql (q : Sql)
| EvLogException (msg : string) (e : Exn)
| EvSleep (secs : Z)
| EvFlash (msg category : string)
| EvThreadStart (interval : Z).

Record Proc : Type := mkProc {
  world : World;
  globals : Globals;
  trace : list Event
}.

Definition emit (ev : Event) (p : Proc) : Proc :=
  mkProc (world p) (globals p) (ev :: trace p).

Definition with_globals (g : Globals) (p : Proc) : Proc :=
  mkProc (world p) g (trace p).

Definition with_world (w : World) (p : Proc) : Proc :=
  mkProc w (globals p) (trace p).

Definition set_entries_cache (l : list Entry) (g : Globals) : Globals :=
  mkGlobals l (_last_id g) (_last_mtime g) (_poller_started g).

Definition set_last_id (k : Z) (g : Globals) : Globals :=
  mkGlobals (_entries_cache g) k (_last_mtime g) (_poller_started g).

Definition set_last_mtime (m : option Z) (g : Globals) : Globals :=
  mkGlobals (_entries_cache g) (_last_id g) m (_poller_started g).

Definition set_poller_started (b : bool) (g : Globals) : Globals :=
  mkGlobals (_entries_cache g) (_last_id g) (_last_mtime g) b.

(** ** Programs

    A program is a tree of atomic actions.  [Act f k] performs [f] on the
    process state in one step; when [f] yields an exception the program
    raises it, otherwise it goes on as [k] of the result.  [Fork i k] is
    [threading.Thread(target=_poll_db, args=(i,), daemon=True).start()]. *)

Inductive Thread (A : Type) : Type :=
| Ret (a : A)
| Raise (e : Exn)
| Act {B : Type} (f : Proc → (Exn + B) * Proc) (k : B → Thread A)
| Fork (interval : Z) (k : Thread A).

Arguments Ret {A} a.
Arguments Raise {A} e.
Arguments Act {A B} f k.
Arguments Fork {A} interval k.

Fixpoint bind {A B : Type} (t : Thread A) (g : A → Thread B) : Thread B :=
  match t with
  | Ret a => g a
  | Raise e => Raise e
  | Act f k => Act f (λ b, bind (k b) g)
  | Fork i k => Fork i (bind k g)
  end.

#[global] Instance thread_ret : MRet Thread := @Ret.

#[global] Instance thread_bind : MBind Thread := λ A B g t, bind t g.

(** [try: t  except C: h], where [catches e] says that [e] is an instance
    of the class [C]. *)
Fixpoint try_except {A : Type} (t : Thread A) (catches : Exn → bool)
    (h : Exn → Thread A) : Thread A :=
  match t with
  | Ret a => Ret a
  | Raise e => if catches e then h e else Raise e
  | Act f k =>
      Act (λ p, let '(r, p') := f p in (inr r, p'))
          (λ r, match r with
                | inl e => if catches e then h e else Raise e
                | inr b => try_except (k b) catches h
                end)
  | Fork i k => Fork i (try_except k catches h)
  end.

Definition Exception (e : Exn) : bool := true.

Definition OSError_class (e : Exn) : bool :=
  match e with
  | OSError => true
  | _ => false
  end.

(** Uninterrupted execution. *)
Fixpoint run {A : Type} (t : Thread A) (p : Proc) : (Exn + A) * Proc :=
  match t with
  | Ret a => (inr a, p)
  | Raise e => (inl e, p)
  | Act f k =>
      let '(r, p') := f p in
      match r with
      | inl e => (inl e, p')
      | inr b => run (k b) p'
      end
  | Fork i k => run k (emit (EvThreadStart i) p)
  end.

(** ** Atomic actions *)

Definition action {B : Type} (f : Proc → (Exn + B) * Proc) : Thread B :=
  Act f Ret.

(** Reading and assigning a module-level name. *)
Definition load_global {B : Type} (field : Globals → B) : Thread B :=
  action (λ p, (inr (field (globals p)), p)).

Definition store_global (set : Globals → Globals) : Thread unit :=
  action (λ p, (inr (), with_globals (set (globals p)) p)).

(** [with _CACHE_LOCK: body].  The lock is held for the whole block and
    every holder of the lock is such a block, so the block is one step.  A
    name that is read or assigned outside the lock is assigned at most once
    inside a block, so that an access outside falls before or after the
    whole block.  Assignments made before the block raises stay in place. *)
Definition with_CACHE_LOCK {B : Type} (body : Globals → (Exn + B) * Globals)
    : Thread B :=
  action (λ p, let '(r, g) := body (globals p) in (r, with_globals g p)).

(** [DB_PATH.stat().st_mtime] *)
Definition stat_st_mtime : Thread Z :=
  action (λ p, match st_mtime (world p) with
               | Some m => (inr m, p)
               | None => (inl OSError, p)
               end).

(** [get_db_connection()], lines 55-58. *)
Definition get_db_connection : Thread unit :=
  action (λ p, match db_status (world p) with
               | DbConnectFails => (inl OperationalError, p)
               | _ => (inr (), p)
               end).

(** [conn.execute(<select>).fetchall()] *)
Definition execute_fetchall (q : Select) : Thread (list Entry) :=
  action (λ p, match db_status (world p) with
               | DbExecuteFails => (inl OperationalError, p)
               | _ => (inr (select q (db (world p))), emit (EvSql (SqlSelect q)) p)
               end).

(** [cur = conn.execute(<insert>); conn.commit(); cur.lastrowid] *)
Definition execute_insert (n m c : pystr) : Thread Z :=
  action (λ p, match db_status (world p) with
               | DbExecuteFails => (inl OperationalError, p)
               | _ =>
                   let w := world p in
                   let '(t, k) := insert_row n m c (db w) in
                   (inr k, emit (EvSql (SqlInsert n m c))
                             (with_world (mkWorld t (db_status w) (st_mtime w) (utcnow w)) p))
               end).

(** [datetime.utcnow().isoformat()] *)
Definition utcnow_isoformat : Thread pystr :=
  action (λ p, (inr (utcnow (world p)), p)).

(** [time.sleep(secs)]; a negative argument raises [ValueError]. *)
Definition sleep (secs : Z) : Thread unit :=
  action (λ p, if decide (secs < 0) then (inl ValueError, p)
               else (inr (), emit (EvSleep secs) p)).

(** [logging.exception(msg)] inside a handler for [e]. *)
Definition logging_exception (msg : string) (e : Exn) : Thread unit :=
  action (λ p, (inr (), emit (EvLogException msg e) p)).

Definition flash (msg category : string) : Thread unit :=
  action (λ p, (inr (), emit (EvFlash msg category) p)).

(** ** The program *)

(** What a view returns: [render_template('index.html', entries=...)] or
    [redirect(url_for(...))].  The cached path hands the template dicts with
    four keys, the direct path rows with three columns. *)
Inductive View : Type :=
| CachedRow (e : Entry)
| DirectRow (n m c : pystr).

Inductive Response : Type :=
| Render (template : string) (rows : list View)
| Redirect (endpoint : string).

Definition direct_row (e : Entry) : View :=
  DirectRow (name e) (message e) (created_at e).

(** How one pass through the body of [while True] ends. *)
Inductive Flow : Type :=
| Continue       (* the [continue] of line 125 *)
| Fallthrough.   (* the end of the [try] statement *)

Section Website.

Variable environ : gmap string pystr.
Variable POLL_INTERVAL : Z.

(** Lines 96-113. *)
Definition _load_initial_cache : Thread unit :=
  try_except
    (get_db_connection ;;
     rows ← execute_fetchall (NewestFirst 100);
     with_CACHE_LOCK (λ g,
       let g := set_entries_cache rows g in
       match rows with
       | r0 :: _ => (inr (), set_last_id (id r0) g)
       | [] => (inr (), g)
       end) ;;
     try_except
       (m ← stat_st_mtime; store_global (set_last_mtime (Some m)))
       OSError_class
       (λ _, store_global (set_last_mtime None)))
    Exception
    (λ e, logging_exception "Failed to load initial cache" e).

(** The critical section of lines 135-138, [r0] being [rows[0]]. *)
Definition merge_rows (rows : list Entry) (r0 : Entry) (g : Globals)
    : (Exn + unit) * Globals :=
  let new := rows in
  let g := set_entries_cache (new ++ _entries_cache g) g in
  (inr (), set_last_id (Z.max (_last_id g) (id r0)) g).

(** Lines 121-139: the body of the [try] statement inside the loop. *)
Definition poll_body (interval : Z) : Thread Flow :=
  stat ← try_except
    (m ← stat_st_mtime; mret (Some m))
    OSError_class
    (λ _, sleep interval ;; mret None);
  match stat with
  | None => mret Continue
  | Some mtime =>
      last ← load_global _last_mtime;
      match last with
      | None => store_global (set_last_mtime (Some mtime))
      | Some _ =>
          last ← load_global _last_mtime;
          if decide (Some mtime ≠ last) then
            get_db_connection ;;
            last_id ← load_global _last_id;
            rows ← execute_fetchall (NewerThan last_id);
            match rows with
            | r0 :: _ => with_CACHE_LOCK (merge_rows rows r0)
            | [] => mret ()
            end ;;
            store_global (set_last_mtime (Some mtime))
          else mret ()
      end ;;
      mret Fallthrough
  end.

(** Lines 120-142: one pass through the body of the loop of [_poll_db]. *)
Definition poll_iteration (interval : Z) : Thread unit :=
  flow ← try_except
    (poll_body interval)
    Exception
    (λ e, logging_exception "DB poller error" e ;; mret Fallthrough);
  match flow with
  | Continue => mret ()
  | Fallthrough => sleep interval
  end.

(** [_poll_db(interval)], lines 116-142, cut off after [fuel] passes. *)
Fixpoint _poll_db (interval : Z) (fuel : nat) : Thread unit :=
  match fuel with
  | O => mret ()
  | S fuel' => poll_iteration interval ;; _poll_db interval fuel'
  end.

(** Lines 147-158. *)
Definition _ensure_poller_started : Thread unit :=
  started ← load_global _poller_started;
  if negb started then
    store_global (set_poller_started true) ;;
    (if USE_CACHE environ then _load_initial_cache else mret ()) ;;
    (if ENABLE_POLLER environ && USE_CACHE environ
     then Fork POLL_INTERVAL (mret ())
     else mret ())
  else mret ().

(** Lines 161-172. *)
Definition index : Thread Response :=
  if USE_CACHE environ then
    entries ← with_CACHE_LOCK (λ g, (inr (_entries_cache g), g));
    mret (Render "index.html" (CachedRow <$> entries))
  else
    get_db_connection ;;
    entries ← execute_fetchall (NewestFirst 100);
    mret (Render "index.html" (direct_row <$> entries)).

(** The block of lines 205-209.  [submit] assigns [_entries_cache] at line
    207 and declares only [_last_id] global (line 208), so within [submit]
    the name [_entries_cache] is a local variable; [local_entries_cache] is
    its value on entry to the block, [None] while it is unbound.  Reading an
    unbound local raises [UnboundLocalError]; assigning it leaves the
    module-level list as it was. *)
Definition submit_cache_block (local_entries_cache : option (list Entry))
    (last_row_id : Z) (name message created_at : pystr) (g : Globals)
    : (Exn + unit) * Globals :=
  let new := mkEntry last_row_id name message created_at in
  match local_entries_cache with
  | None => (inl UnboundLocalError, g)
  | Some cache =>
      let local_entries_cache := Some (new :: cache) in
      (inr (), set_last_id (Z.max (_last_id g) last_row_id) g)
  end.

(** Lines 178 and 179: the two form fields as the handler reads them. *)
Definition name_field (form : gmap string pystr) : pystr :=
  str_or (strip (get form "name" [])) (py "Anonymous").

Definition message_field (form : gmap string pystr) : pystr :=
  strip (get form "message" []).

(** Lines 177-214.  No statement before line 207 binds the local
    [_entries_cache], so the block is entered with [None]. *)
Definition submit (form : gmap string pystr) : Thread Response :=
  let name := name_field form in
  let message := message_field form in
  if decide (message = []) then
    flash "Message is required." "error" ;;
    mret (Redirect "index")
  else if decide (50 < length name)%nat then
    flash "Name must be 50 characters or fewer." "error" ;;
    mret (Redirect "index")
  else if decide (1000 < length message)%nat then
    flash "Message is too long (max 1000 characters)." "error" ;;
    mret (Redirect "index")
  else
    created_at ← utcnow_isoformat;
    get_db_connection ;;
    last_row_id ← execute_insert name message created_at;
    (if USE_CACHE environ then
       try_except
         (with_CACHE_LOCK
            (submit_cache_block None last_row_id name message created_at))
         Exception
         (λ e, logging_exception "Failed to update cache on submit" e)
     else mret ()) ;;
    flash "Thanks — your message was posted!" "success" ;;
    mret (Redirect "index").

(** A request: the [before_request] hook, then the view. *)
Definition handle (view : Thread Response) : Thread Response :=
  _ensure_poller_started ;; view.

End Website.

(** ** Threads side by side

    The request handlers and the pollers of one process take turns, one
    atomic action at a time; between two actions the world may change. *)

Record Pool : Type := mkPool {
  proc : Proc;
  requests : list (Thread Response);
  pollers : list (Z * Thread unit)
}.

(** One action of a thread; the third component is the interval of the
    poller it starts, if it starts one. *)
Definition step {A : Type} (t : Thread A) (p : Proc)
    : Thread A * Proc * option Z :=
  match t with
  | Ret _ | Raise _ => (t, p, None)
  | Act f k =>
      let '(r, p') := f p in
      (match r with
       | inl e => Raise e
       | inr b => k b
       end, p', None)
  | Fork i k => (k, emit (EvThreadStart i) p, Some i)
  end.

Inductive Label : Type :=
| ArriveIndex                       (* GET / comes in *)
| ArriveSubmit (form : gmap string pystr)   (* POST /submit comes in *)
| StepRequest (i : nat)             (* handler [i] takes a step *)
| StepPoller (i : nat)              (* poller [i] takes a step *)
| ExternalInsert (n m c : pystr)    (* another process adds an entry *)
| Touch (m : option Z)              (* what [stat] reports changes *)
| SetDbStatus (s : DbStatus).

Section Scheduler.

Variable environ : gmap string pystr.
Variable POLL_INTERVAL : Z.

Definition start_poller (forked : option Z) : list (Z * Thread unit) :=
  match forked with
  | Some i => [(i, poll_iteration i)]
  | None => []
  end.

Definition change_world (f : World → World) (pl : Pool) : Pool :=
  mkPool (with_world (f (world (proc pl))) (proc pl)) (requests pl) (pollers pl).

Definition pool_step (l : Label) (pl : Pool) : Pool :=
  match l with
  | ArriveIndex =>
      mkPool (proc pl)
             (requests pl ++ [handle environ POLL_INTERVAL (index environ)])
             (pollers pl)
  | ArriveSubmit form =>
      mkPool (proc pl)
             (requests pl ++ [handle environ POLL_INTERVAL (submit environ form)])
             (pollers pl)
  | StepRequest i =>
      match requests pl !! i with
      | Some t =>
          let '(t', p', forked) := step t (proc pl) in
          mkPool p' (<[i := t']> (requests pl)) (pollers pl ++ start_poller forked)
      | None => pl
      end
  | StepPoller i =>
      match pollers pl !! i with
      | Some (iv, Ret _) =>
          (* back to the head of [while True] *)
          mkPool (proc pl) (requests pl) (<[i := (iv, poll_iteration iv)]> (pollers pl))
      | Some (iv, t) =>
          let '(t', p', _) := step t (proc pl) in
          mkPool p' (requests pl) (<[i := (iv, t')]> (pollers pl))
      | None => pl
      end
  | ExternalInsert n m c =>
      change_world (λ w, mkWorld (fst (insert_row n m c (db w))) (db_status w)
                                 (st_mtime w) (utcnow w)) pl
  | Touch m =>
      change_world (λ w, mkWorld (db w) (db_status w) m (utcnow w)) pl
  | SetDbStatus s =>
      change_world (λ w, mkWorld (db w) s (st_mtime w) (utcnow w)) pl
  end.

Definition pool_run (ls : list Label) (pl : Pool) : Pool :=
  foldl (λ pl l, pool_step l pl) pl ls.

End Scheduler.

(** The requests of the two routes, and a request served from its first
    step to its last with nothing in between. *)
Inductive Request : Type :=
| GetIndex
| PostSubmit (form : gmap string pystr).

Definition view_of (environ : gmap string pystr) (r : Request) : Thread Response :=
  match r with
  | GetIndex => index environ
  | PostSubmit form => submit environ form
  end.

Definition serve (environ : gmap string pystr) (POLL_INTERVAL : Z)
    (p : Proc) (r : Request) : Proc :=
  (run (handle environ POLL_INTERVAL (view_of environ r)) p).2.

(** [survives t]: at none of its steps, whatever the state of the process
    then is, does [t] raise. *)
Fixpoint survives {A : Type} (t : Thread A) : Prop :=
  match t with
  | Ret _ => True
  | Raise _ => False
  | Act f k =>
      ∀ p, match (f p).1 with
           | inl _ => False
           | inr b => survives (k b)
           end
  | Fork _ k => survives k
  end.

(** A process that has just been started. *)
Definition fresh_proc (w : World) : Proc := mkProc w init_globals [].

Definition fresh_pool (w : World) : Pool := mkPool (fresh_proc w) [] [].

Definition is_thread_start (ev : Event) : bool :=
  match ev with
  | EvThreadStart _ => true
  | _ => false
  end.


Definition is_sql (ev : Event) : bool :=
  match ev with
  | EvSql _ => true
  | _ => false
  end.

Definition count_events (f : Event → bool) (p : Proc) : nat :=
  length (filter (λ ev, f ev = true) (trace p)).

(** The number of calls of [Thread.start] so far. *)
Definition threads_started (p : Proc) : nat := count_events is_thread_start p.

(** ** Invariants of the cache *)

(** [_last_id] is at least the id of every cached entry. *)
Definition cache_bounded (g : Globals) : Prop :=
  Forall (λ e, id e ≤ _last_id g) (_entries_cache g).

(** The ids of the cached entries go strictly down. *)
Definition id_above (a b : Entry) : Prop := id b < id a.

Definition strictly_descending (l : list Entry) : Prop :=
  StronglySorted id_above l.

#[global] Instance id_above_dec a b : Decision (id_above a b) := Z_lt_dec (id b) (id a).

(** [id] is the primary key of the table. *)
Definition unique_ids (t : Table) : Prop := NoDup (ids (entries t)).

(** The operations that assign to the cache state, each run without
    interruption, and a change of the world between two of them. *)
Inductive Op : Type :=
| OpLoad                                  (* [_load_initial_cache()] *)
| OpPoll (interval : Z)                   (* one pass of [_poll_db] *)
| OpSubmit (form : gmap string pystr)     (* [submit()] *)
| OpWorld (w : World).

Definition apply_op (environ : gmap string pystr) (p : Proc) (o : Op) : Proc :=
  match o with
  | OpLoad => (run _load_initial_cache p).2
  | OpPoll i => (run (poll_iteration i) p).2
  | OpSubmit form => (run (submit environ form) p).2
  | OpWorld w => with_world w p
  end.

Definition keeps_key (o : Op) : Prop :=
  match o with
  | OpWorld w => unique_ids (db w)
  | _ => True
  end.








(** The intervals of the threads a program starts when run without
    interruption. *)
Fixpoint forked {A : Type} (t : Thread A) (p : Proc) : list Z :=
  match t with
  | Ret _ | Raise _ => []
  | Act f k =>
      let '(r, p') := f p in
      match r with
      | inl _ => []
      | inr b => forked (k b) p'
      end
  | Fork i k => i :: forked k (emit (EvThreadStart i) p)
  end.



(** The responses of the handlers that have finished. *)
Definition responses (pl : Pool) : list Response :=
  omap (λ t, match t with Ret r => Some r | _ => None end) (requests pl).

(** ** States the lemmas speak of *)

(** The table after an accepted submission. *)
Definition inserted (form : gmap string pystr) (w : World) : World :=
  mkWorld (fst (insert_row (name_field form) (message_field form) (utcnow w) (db w)))
          (db_status w) (st_mtime w) (utcnow w).


(** The state after the rows of a query have been merged (lines 134-138). *)
Definition merged (rows : list Entry) (g : Globals) : Globals :=
  match rows with
  | r0 :: _ => (merge_rows rows r0 g).2
  | [] => g
  end.

(** What a sequence of uninterrupted operations maintains. *)
Definition well_kept (p : Proc) : Prop :=
  unique_ids (db (world p))
  ∧ cache_bounded (globals p)
  ∧ strictly_descending (_entries_cache (globals p)).

(** ** Worlds, requests and schedules of the examples *)

Definition clock : pystr := py "2024-01-01T00:00:00".

Definition empty_world : World := mkWorld empty_table DbUp (Some 1) clock.

Definition alice : gmap string pystr :=
  <["name" := py "Alice"]> (<["message" := py "hi"]> ∅).

Definition one_entry_table : Table :=
  (insert_row (py "Alice") (py "hi") clock empty_table).1.

(** A process whose first request came while the database could not be
    queried, so that [_load_initial_cache] failed; the database has since
    become usable again. *)
Definition after_failed_load : Proc :=
  with_world (mkWorld one_entry_table DbUp (Some 7) clock)
    (run (_ensure_poller_started ∅ 10)
         (fresh_proc (mkWorld one_entry_table DbExecuteFails (Some 7) clock))).2.

(** A process whose cache was loaded; the file has changed since and the
    database cannot be queried. *)
Definition while_db_down : Proc :=
  with_world (mkWorld one_entry_table DbExecuteFails (Some 2) clock)
    (run (_ensure_poller_started ∅ 10)
         (fresh_proc (mkWorld one_entry_table DbUp (Some 1) clock))).2.


(** Fifty letters and a space. *)
Definition padded_name_form : gmap string pystr :=
  <["name" := replicate 50 97%N ++ py " "]> (<["message" := py "hi"]> ∅).

Definition blank_name_form : gmap string pystr :=
  <["name" := py "  "]> (<["message" := py "yo"]> ∅).

Definition empty_message_form : gmap string pystr :=
  <["name" := py "Bob"]> (<["message" := py ""]> ∅).

Definition alice_entry : Entry := mkEntry 1 (py "Alice") (py "hi") clock.

(** Two first requests take turns: each reads [_poller_started] (line 152)
    before the other assigns it (line 153). *)
Definition racing_first_requests : list Label :=
  [ArriveIndex; ArriveIndex;
   StepRequest 0;    (* handler 0, line 152: reads False *)
   StepRequest 1]    (* handler 1, line 152: reads False *)
  ++ replicate 8 (StepRequest 0)   (* handler 0, lines 153-158 and the view *)
  ++ replicate 8 (StepRequest 1).  (* handler 1, lines 153-158 and the view *)

(** After that start, an entry is submitted and the file's modification
    time changes; both pollers run their query (lines 122-133) before
    either merges its rows (lines 134-139); then the page is read. *)
Definition racing_pollers : list Label :=
  racing_first_requests
  ++ [ArriveSubmit alice] ++ replicate 7 (StepRequest 2)
  ++ [Touch (Some 2)]
  ++ replicate 6 (StepPoller 0)    (* poller 0, lines 122-133 *)
  ++ replicate 6 (StepPoller 1)    (* poller 1, lines 122-133 *)
  ++ replicate 3 (StepPoller 0)    (* poller 0, lines 134-142 *)
  ++ replicate 3 (StepPoller 1)    (* poller 1, lines 134-142 *)
  ++ [ArriveIndex] ++ replicate 2 (StepRequest 3).

(** A table of a hundred entries. *)
Definition hundred_entries : Table :=
  foldr (λ _ t, (insert_row (py "Ann") (py "hello") clock t).1) empty_table
        (replicate 100 ()).

(** A first read of a hundred entries, one more entry written by another
    process, a pass of the poller, and a second read. *)
Definition read_after_merge : list Label :=
  [ArriveIndex] ++ replicate 9 (StepRequest 0)
  ++ [ExternalInsert (py "Zoe") (py "late") clock; Touch (Some 2)]
  ++ replicate 9 (StepPoller 0)
  ++ [ArriveIndex] ++ replicate 2 (StepRequest 1).

Definition rows_of (r : Response) : list View :=
  match r with
  | Render _ rows => rows
  | Redirect _ => []
  end.

(** ** The rest of the configuration (lines 22 and 29-33)

    [str.lower]: the capitals A-Z go to a-z.  The settings below compare a
    lowered string with "1", "true" and "yes" only; the code points whose
    lower case has a character of these strings are those characters and
    their ASCII capitals, each lowered to one character, so leaving every
    other code point alone changes the outcome of no such comparison. *)

Definition lower_char (c : N) : N :=
  if ((65 <=? c) && (c <=? 90))%N then (c + 32)%N else c.

Definition lower (s : pystr) : pystr := lower_char <$> s.

(** [str(b)] for a bool. *)
Definition str_of_bool (b : bool) : pystr :=
  if b then py "True" else py "False".

(** The tuple [('1', 'true', 'yes')]. *)
Definition truthy : list pystr := [py "1"; py "true"; py "yes"].

Section Settings.

Variable environ : gmap string pystr.
Variable debug : bool.   (* [app.debug] when the module is imported *)

(** Line 22. *)
Definition SESSION_COOKIE_SECURE : bool :=
  bool_decide
    (lower (get environ "SESSION_COOKIE_SECURE" (str_of_bool (negb debug)))
     ∈ truthy).

(** Lines 29-33. *)
Definition _force_https : bool :=
  let _FORCE_HTTPS := get environ "GUESTBOOK_FORCE_HTTPS" [] in
  if decide (_FORCE_HTTPS = []) then negb debug
  else bool_decide (lower _FORCE_HTTPS ∈ truthy).

End Settings.

(** ** More states and measures the lemmas speak of *)

Definition is_flash (ev : Event) : bool :=
  match ev with
  | EvFlash _ _ => true
  | _ => false
  end.

(** The three columns of a row the template is handed, whichever path
    handed it. *)
Definition columns (v : View) : pystr * pystr * pystr :=
  match v with
  | CachedRow e => (name e, message e, created_at e)
  | DirectRow n m c => (n, m, c)
  end.

(** The globals after a successful initial load of [rows] (lines 104-111),
    [m] being what [stat] gave then. *)
Definition installed (rows : list Entry) (m : option Z) (g : Globals) : Globals :=
  set_last_mtime m
    (match rows with
     | r0 :: _ => set_last_id (id r0) (set_entries_cache rows g)
     | [] => set_entries_cache rows g
     end).

(** The world with another modification time, or another status. *)
Definition touched (m : option Z) (w : World) : World :=
  mkWorld (db w) (db_status w) m (utcnow w).

Definition with_status (s : DbStatus) (w : World) : World :=
  mkWorld (db w) s (st_mtime w) (utcnow w).

(** A process whose cache holds the one entry of the table. *)
Definition in_step : Proc :=
  (run (_ensure_poller_started ∅ 10)
       (fresh_proc (mkWorld one_entry_table DbUp (Some 1) clock))).2.

Definition cache_off : gmap string pystr := <["GUESTBOOK_USE_CACHE" := py "0"]> ∅.

Definition bob : gmap string pystr :=
  <["name" := py " Bob "]> (<["message" := py "hello"]> ∅).

(** * Properties *)

(** ** Running programs *)

Lemma run_bind {A B : Type} (t : Thread A) (g : A → Thread B) (p : Proc) :
  run (t ≫= g) p =
  match run t p with
  | (inl e, p') => (inl e, p')
  | (inr a, p') => run (g a) p'
  end.
Proof.
  revert p. induction t as [a|e|C f k IH|i k IH]; intros p; simpl.
  - reflexivity.
  - reflexivity.
  - destruct (f p) as [[e|b] p']; [reflexivity|]. apply IH.
  - apply IH.
Qed.


Lemma run_action {B : Type} (f : Proc → (Exn + B) * Proc) (p : Proc) :
  run (action f) p = f p.
Proof. unfold action. simpl. destruct (f p) as [[e|b] p']; reflexivity. Qed.

Lemma run_flash msg category (p : Proc) :
  run (flash msg category) p = (inr (), emit (EvFlash msg category) p).
Proof. reflexivity. Qed.

(** ** Strings and configuration *)

Lemma lstrip_blank (s : pystr) : forallb isspace s = true → lstrip s = [].
Proof.
  induction s as [|c s IH]; simpl; [reflexivity|].
  intros H. apply andb_prop in H as [Hc Hs]. rewrite Hc. auto.
Qed.

Lemma strip_blank (s : pystr) : forallb isspace s = true → strip s = [].
Proof. intros H. unfold strip. rewrite lstrip_blank by exact H. reflexivity. Qed.

Lemma get_lookup (d : gmap string pystr) key dflt :
  get d key dflt = dflt ↔ d !! key = None ∨ d !! key = Some dflt.
Proof.
  unfold get. destruct (d !! key) as [v|]; simpl.
  - split; [intros ->; right; reflexivity|]. intros [?|[=]]; congruence.
  - split; [left|]; reflexivity.
Qed.

Example strip_examples :
  strip (py "  hi there ") = py "hi there"
  ∧ strip (py "   ") = []
  ∧ str_or (strip []) (py "Anonymous") = py "Anonymous".
Proof. repeat split. Qed.

(** C10: each of the flags ENABLE_POLLER and USE_CACHE is on exactly when
    its environment variable is absent or holds the one-character string
    "1"; every other value of the variable, "true" and "yes" among them,
    turns the flag off. *)
Theorem flag_on_iff_1 (environ : gmap string pystr) :
  (ENABLE_POLLER environ = true ↔
     environ !! "GUESTBOOK_ENABLE_POLLER" = None
     ∨ environ !! "GUESTBOOK_ENABLE_POLLER" = Some (py "1"))
  ∧ (USE_CACHE environ = true ↔
     environ !! "GUESTBOOK_USE_CACHE" = None
     ∨ environ !! "GUESTBOOK_USE_CACHE" = Some (py "1"))
  ∧ (∀ v, v ≠ py "1" →
       ENABLE_POLLER (<["GUESTBOOK_ENABLE_POLLER" := v]> environ) = false
       ∧ USE_CACHE (<["GUESTBOOK_USE_CACHE" := v]> environ) = false)
  ∧ ENABLE_POLLER (<["GUESTBOOK_ENABLE_POLLER" := py "true"]> environ) = false
  ∧ USE_CACHE (<["GUESTBOOK_USE_CACHE" := py "yes"]> environ) = false.
Proof.
  unfold ENABLE_POLLER, USE_CACHE.
  split; [|split; [|split]].
  - rewrite bool_decide_eq_true. apply get_lookup.
  - rewrite bool_decide_eq_true. apply get_lookup.
  - intros v Hv. split; apply bool_decide_eq_false; unfold get;
      rewrite lookup_insert_eq; simpl; exact Hv.
  - split; apply bool_decide_eq_false; unfold get;
      rewrite lookup_insert_eq; simpl; discriminate.
Qed.

(** ** The submit handler *)

Lemma message_field_empty (form : gmap string pystr) :
  get form "message" [] = [] → message_field form = [].
Proof. unfold message_field. intros ->. reflexivity. Qed.

Lemma name_field_blank (form : gmap string pystr) :
  forallb isspace (get form "name" []) = true → name_field form = py "Anonymous".
Proof. intros H. unfold name_field. rewrite strip_blank by exact H. reflexivity. Qed.

Lemma submit_accepts environ form (p : Proc) :
  message_field form ≠ [] →
  (length (name_field form) ≤ 50)%nat →
  (length (message_field form) ≤ 1000)%nat →
  db_status (world p) = DbUp →
  run (submit environ form) p =
  (inr (Redirect "index"),
   emit (EvFlash "Thanks — your message was posted!" "success")
     (let q := emit (EvSql (SqlInsert (name_field form) (message_field form)
                                      (utcnow (world p))))
                    (with_world (inserted form (world p)) p) in
      if USE_CACHE environ
      then emit (EvLogException "Failed to update cache on submit" UnboundLocalError) q
      else q)).
Proof.
  intros Hm Hn Hl Hdb. unfold submit.
  destruct (decide (message_field form = [])) as [|_]; [contradiction|].
  destruct (decide (50 < length (name_field form))%nat) as [|_]; [lia|].
  destruct (decide (1000 < length (message_field form))%nat) as [|_]; [lia|].
  destruct p as [[d s m u] g tr]; simpl in Hdb; subst s.
  destruct (USE_CACHE environ); reflexivity.
Qed.

(** [submit] never assigns a module-level name. *)
Lemma submit_globals environ form (p : Proc) :
  globals (run (submit environ form) p).2 = globals p.
Proof.
  unfold submit.
  destruct (decide (message_field form = [])); [reflexivity|].
  destruct (decide (50 < length (name_field form))%nat); [reflexivity|].
  destruct (decide (1000 < length (message_field form))%nat); [reflexivity|].
  destruct p as [[d s m u] g tr].
  destruct s; try reflexivity; destruct (USE_CACHE environ); reflexivity.
Qed.

(** C8: a submission whose message is empty, or whose name is longer than
    50 characters, or whose message is longer than 1000 characters (name and
    message as the handler reads them at lines 178-179) is answered with a
    flashed message of category "error" and a redirect; nothing is written
    to the table and the module-level cache state stays as it was. *)
Theorem submit_rejects environ form (p : Proc) :
  message_field form = []
  ∨ (50 < length (name_field form))%nat
  ∨ (1000 < length (message_field form))%nat →
  ∃ msg p',
    run (submit environ form) p = (inr (Redirect "index"), p')
    ∧ trace p' = EvFlash msg "error" :: trace p
    ∧ world p' = world p
    ∧ length (entries (db (world p'))) = length (entries (db (world p)))
    ∧ globals p' = globals p.
Proof.
  intros H. unfold submit.
  destruct (decide (message_field form = [])) as [|Hm].
  { eexists _, _. split; [reflexivity|]. by cbn. }
  destruct (decide (50 < length (name_field form))%nat) as [|Hn].
  { eexists _, _. split; [reflexivity|]. by cbn. }
  destruct (decide (1000 < length (message_field form))%nat) as [|Hl].
  { eexists _, _. split; [reflexivity|]. by cbn. }
  destruct H as [?|[?|?]]; [contradiction|lia|lia].
Qed.

(** The lengths are those of the stripped fields: padding does not count. *)
Example padding_is_not_counted :
  length (get padded_name_form "name" []) = 51%nat
  ∧ length (name_field padded_name_form) = 50%nat
  ∧ (run (submit ∅ padded_name_form) (fresh_proc empty_world)).1
    = inr (Redirect "index")
  ∧ ids (entries (db (world (run (submit ∅ padded_name_form)
                                 (fresh_proc empty_world)).2))) = [1].
Proof. vm_compute. repeat split. Qed.

Lemma submit_rejects_witness :
  ∃ msg p',
    run (submit ∅ empty_message_form) (fresh_proc empty_world)
    = (inr (Redirect "index"), p')
    ∧ trace p' = EvFlash msg "error" :: []
    ∧ world p' = empty_world
    ∧ length (entries (db (world p'))) = 0%nat
    ∧ globals p' = init_globals.
Proof.
  apply (submit_rejects ∅ empty_message_form (fresh_proc empty_world)).
  left. reflexivity.
Defined.

(** C9: a submission whose name is blank (absent, empty or made of
    whitespace only) and whose message is valid is stored, when the insert
    goes through, under the name "Anonymous". *)
Theorem blank_name_stored_as_Anonymous environ form (p : Proc) :
  forallb isspace (get form "name" []) = true →
  message_field form ≠ [] →
  (length (message_field form) ≤ 1000)%nat →
  db_status (world p) = DbUp →
  ∃ p' k,
    run (submit environ form) p = (inr (Redirect "index"), p')
    ∧ entries (db (world p')) =
      entries (db (world p))
        ++ [mkEntry k (py "Anonymous") (message_field form) (utcnow (world p))].
Proof.
  intros Hb Hm Hl Hdb.
  pose proof (name_field_blank form Hb) as Hn.
  eexists _, _. split.
  - apply submit_accepts; try assumption. rewrite Hn. simpl. lia.
  - destruct (USE_CACHE environ); cbn; rewrite Hn; reflexivity.
Qed.

Lemma blank_name_stored_as_Anonymous_witness :
  ∃ p' k,
    run (submit ∅ blank_name_form) (fresh_proc empty_world)
    = (inr (Redirect "index"), p')
    ∧ entries (db (world p')) = [] ++ [mkEntry k (py "Anonymous") (py "yo") clock].
Proof.
  apply (blank_name_stored_as_Anonymous ∅ blank_name_form (fresh_proc empty_world)).
  - reflexivity.
  - vm_compute. discriminate.
  - vm_compute. lia.
  - reflexivity.
Defined.

(** ** One pass of the poller *)

(** Case analysis on the tests a program makes as it runs. *)
Ltac split_run :=
  repeat (cbn;
          match goal with
          | |- context [decide ?P] => destruct (decide P)
          | |- context [match order_by_id_desc ?l with _ => _ end] =>
              destruct (order_by_id_desc l)
          | |- context [match take ?n ?l with _ => _ end] =>
              destruct (take n l)
          end).


Lemma poll_first_marker i m (p : Proc) :
  0 ≤ i → st_mtime (world p) = Some m → _last_mtime (globals p) = None →
  run (poll_iteration i) p =
  (inr (), emit (EvSleep i) (with_globals (set_last_mtime (Some m) (globals p)) p)).
Proof.
  intros Hi Hm Hl. destruct p as [[d s m' u] [c l lm st] tr]; simpl in *; subst.
  cbn. destruct (decide (i < 0)); [lia|]. reflexivity.
Qed.

Lemma poll_same_marker i m (p : Proc) :
  0 ≤ i → st_mtime (world p) = Some m → _last_mtime (globals p) = Some m →
  run (poll_iteration i) p = (inr (), emit (EvSleep i) p).
Proof.
  intros Hi Hm Hl. destruct p as [[d s m' u] [c l lm st] tr]; simpl in *; subst.
  cbn. destruct (decide (Some m ≠ Some m)) as [|_]; [congruence|].
  cbn. destruct (decide (i < 0)); [lia|]. reflexivity.
Qed.


Lemma poll_new_marker i m m0 (p : Proc) :
  0 ≤ i → st_mtime (world p) = Some m → _last_mtime (globals p) = Some m0 →
  m ≠ m0 → db_status (world p) = DbUp →
  run (poll_iteration i) p =
  (inr (),
   let q := NewerThan (_last_id (globals p)) in
   emit (EvSleep i)
     (with_globals
        (set_last_mtime (Some m) (merged (select q (db (world p))) (globals p)))
        (emit (EvSql (SqlSelect q)) p))).
Proof.
  intros Hi Hm Hl Hne Hdb.
  destruct p as [[d s m' u] [c l lm st] tr]; simpl in *; subst.
  cbn. destruct (decide (Some m ≠ Some m0)) as [_|Heq];
    [|exfalso; apply Heq; congruence].
  cbn. destruct (order_by_id_desc _) as [|r0 rows]; cbn;
    destruct (decide (i < 0)); try lia; reflexivity.
Qed.





Lemma survives_bind {A B : Type} (t : Thread A) (g : A → Thread B) :
  survives t → (∀ a, survives (g a)) → survives (t ≫= g).
Proof.
  intros Ht Hg. induction t as [a|e|C f k IH|i k IH]; simpl in *.
  - apply Hg.
  - contradiction.
  - intros p. specialize (Ht p). destruct (f p).1; [done|]. by apply IH.
  - by apply IH.
Qed.

Lemma count_events_emit f ev (p : Proc) :
  count_events f (emit ev p) =
  ((if f ev then 1 else 0) + count_events f p)%nat.
Proof.
  unfold count_events, emit. simpl. rewrite filter_cons.
  destruct (f ev); simpl; [reflexivity|].
  destruct (decide (false = true)); [discriminate|reflexivity].
Qed.

Lemma count_events_with_globals f g (p : Proc) :
  count_events f (with_globals g p) = count_events f p.
Proof. reflexivity. Qed.





(** ** What the queries return *)

#[global] Instance id_desc_trans : Transitive id_desc.
Proof. intros a b c. unfold id_desc. lia. Qed.

#[global] Instance id_desc_total : Total id_desc.
Proof. intros a b. unfold id_desc. lia. Qed.

Lemma order_by_id_desc_sorted (l : list Entry) :
  StronglySorted id_desc (order_by_id_desc l).
Proof. apply StronglySorted_merge_sort; apply _. Qed.

Lemma order_by_id_desc_perm (l : list Entry) : order_by_id_desc l ≡ₚ l.
Proof. apply merge_sort_Permutation. Qed.

Lemma select_sorted q (t : Table) : StronglySorted id_desc (select q t).
Proof.
  destruct q as [limit|last]; simpl.
  - apply (StronglySorted_app_1_l _ _ (drop limit (order_by_id_desc (entries t)))).
    rewrite take_drop. apply order_by_id_desc_sorted.
  - apply order_by_id_desc_sorted.
Qed.

Lemma select_from_table q (t : Table) (e : Entry) :
  e ∈ select q t → e ∈ entries t.
Proof.
  destruct q as [limit|last]; simpl; intros H.
  - apply subseteq_take in H. by rewrite order_by_id_desc_perm in H.
  - rewrite order_by_id_desc_perm in H. by apply list_elem_of_filter in H as [_ ?].
Qed.

Lemma select_newer_than last (t : Table) :
  select (NewerThan last) t ≡ₚ filter (λ e, last < id e) (entries t).
Proof. apply order_by_id_desc_perm. Qed.

Lemma select_newer_than_ids last (t : Table) :
  Forall (λ e, last < id e) (select (NewerThan last) t).
Proof.
  rewrite select_newer_than. apply Forall_forall. intros e H.
  by apply list_elem_of_filter in H as [? _].
Qed.

(** The first row of a query's result carries its largest id. *)
Lemma sorted_head_max (r0 : Entry) (rows : list Entry) :
  StronglySorted id_desc (r0 :: rows) → Forall (λ e, id e ≤ id r0) (r0 :: rows).
Proof.
  intros H. apply StronglySorted_inv in H as [_ H].
  constructor; [lia|]. exact H.
Qed.

Lemma foldr_max_head last (r0 : Entry) (rows : list Entry) :
  StronglySorted id_desc (r0 :: rows) →
  foldr Z.max last (ids (r0 :: rows)) = Z.max last (id r0).
Proof.
  intros H. apply sorted_head_max in H. apply Forall_cons in H as [_ H].
  simpl. induction H as [|e rows He _ IH]; simpl; [lia|].
  simpl in IH. lia.
Qed.

(** C5 as amended: in a pass of the poller in which [stat] returns the
    marker [m] and the database can be queried,
    - when no marker has been recorded yet, [m] is recorded and no query is
      issued;
    - when [m] is the recorded marker, no query is issued and the state
      stays as it was;
    - when [m] differs from the recorded marker, the one query issued is
      for the entries with id above [_last_id], newest first; the rows it
      returns are put in front of the cache, [_last_id] becomes the largest
      id among them (it stays as it was when there are none), and [m] is
      recorded in either case. *)
Theorem poll_by_marker (i m : Z) (p : Proc) :
  0 ≤ i →
  st_mtime (world p) = Some m →
  db_status (world p) = DbUp →
  ∃ p',
    run (poll_iteration i) p = (inr (), p')
    ∧ world p' = world p
    ∧ match _last_mtime (globals p) with
      | None =>
          globals p' = set_last_mtime (Some m) (globals p)
          ∧ trace p' = EvSleep i :: trace p
      | Some m0 =>
          if decide (m = m0) then
            globals p' = globals p ∧ trace p' = EvSleep i :: trace p
          else
            let last := _last_id (globals p) in
            let rows := select (NewerThan last) (db (world p)) in
            trace p' = EvSleep i :: EvSql (SqlSelect (NewerThan last)) :: trace p
            ∧ rows ≡ₚ filter (λ e, last < id e) (entries (db (world p)))
            ∧ StronglySorted id_desc rows
            ∧ _entries_cache (globals p') = rows ++ _entries_cache (globals p)
            ∧ _last_id (globals p') = foldr Z.max last (ids rows)
            ∧ (rows ≠ [] → _last_id (globals p') ∈ ids rows)
            ∧ _last_mtime (globals p') = Some m
      end.
Proof.
  intros Hi Hm Hdb.
  destruct (_last_mtime (globals p)) as [m0|] eqn:Hl.
  2: { eexists. split; [by eapply poll_first_marker|]. done. }
  destruct (decide (m = m0)) as [->|Hne].
  { eexists. split; [by eapply poll_same_marker|]. done. }
  eexists. split; [by eapply poll_new_marker|].
  split; [done|]. cbn.
  split; [done|]. split; [apply order_by_id_desc_perm|].
  split; [apply order_by_id_desc_sorted|].
  pose proof (select_sorted (NewerThan (_last_id (globals p))) (db (world p))) as Hs.
  pose proof (select_newer_than_ids (_last_id (globals p)) (db (world p))) as Hgt.
  simpl in Hs, Hgt.
  destruct (order_by_id_desc _) as [|r0 rows].
  - done.
  - rewrite (foldr_max_head _ _ _ Hs).
    apply Forall_cons in Hgt as [Hgt _]. cbn.
    split; [done|]. split; [done|]. split; [|done]. intros _.
    replace (Z.max (_last_id (globals p)) (id r0)) with (id r0) by lia.
    apply list_elem_of_here.
Qed.

Lemma poll_by_marker_witness :
  ∃ p', run (poll_iteration 10) after_failed_load = (inr (), p')
        ∧ _last_mtime (globals p') = Some 7.
Proof.
  destruct (poll_by_marker 10 7 after_failed_load) as (p' & Hr & _ & Hg).
  - lia.
  - reflexivity.
  - reflexivity.
  - exists p'. split; [exact Hr|].
    change (_last_mtime (globals after_failed_load)) with (@None Z) in Hg.
    destruct Hg as [-> _]. reflexivity.
Defined.

(** C5 as stated fails before the first marker is recorded: the marker read
    differs from the recorded one (there is none) and the table holds an
    entry above [_last_id], yet the pass issues no query and puts nothing
    in front of the cache. *)
Lemma first_marker_is_not_queried :
  let p := after_failed_load in
  let p' := (run (poll_iteration 10) p).2 in
  st_mtime (world p) = Some 7
  ∧ _last_mtime (globals p) ≠ Some 7
  ∧ db_status (world p) = DbUp
  ∧ select (NewerThan (_last_id (globals p))) (db (world p))
    = [mkEntry 1 (py "Alice") (py "hi") clock]
  ∧ _entries_cache (globals p') = []
  ∧ _last_id (globals p') = 0
  ∧ count_events is_sql p' = count_events is_sql p.
Proof. vm_compute. repeat split; discriminate. Qed.

(** ** [_last_id] bounds the cache *)

Lemma load_initial_cases (p : Proc) :
  ∃ p', run _load_initial_cache p = (inr (), p')
        ∧ world p' = world p
        ∧ (globals p' = globals p
           ∨ ∃ m, globals p' =
                  set_last_mtime m
                    (let rows := select (NewestFirst 100) (db (world p)) in
                     let g := set_entries_cache rows (globals p) in
                     match rows with
                     | r0 :: _ => set_last_id (id r0) g
                     | [] => g
                     end)).
Proof.
  destruct p as [[d s m u] g tr].
  destruct s; cbn.
  - destruct (take 100 (order_by_id_desc (entries d))) as [|r0 rows]; cbn;
      destruct m; cbn; eexists; (split; [reflexivity|]); (split; [done|]);
      right; eexists; reflexivity.
  - eexists; split; [reflexivity|]. split; [done|]. by left.
  - eexists; split; [reflexivity|]. split; [done|]. by left.
Qed.

Lemma cache_bounded_installed (rows : list Entry) (g : Globals) m :
  StronglySorted id_desc rows →
  cache_bounded
    (set_last_mtime m
       (match rows with
        | r0 :: _ => set_last_id (id r0) (set_entries_cache rows g)
        | [] => set_entries_cache rows g
        end)).
Proof.
  intros Hs. destruct rows as [|r0 rows]; unfold cache_bounded; simpl.
  - constructor.
  - apply (sorted_head_max _ _ Hs).
Qed.

Lemma cache_bounded_merged (rows : list Entry) (g : Globals) :
  StronglySorted id_desc rows → cache_bounded g → cache_bounded (merged rows g).
Proof.
  intros Hs Hg. destruct rows as [|r0 rows]; [exact Hg|].
  unfold cache_bounded in *. cbn.
  change (r0 :: rows ++ _entries_cache g) with ((r0 :: rows) ++ _entries_cache g).
  apply Forall_app. split.
  - eapply Forall_impl; [apply (sorted_head_max _ _ Hs)|]. simpl. lia.
  - eapply Forall_impl; [exact Hg|]. simpl. lia.
Qed.

Lemma poll_iteration_cases i (p : Proc) :
  let p' := (run (poll_iteration i) p).2 in
  world p' = world p
  ∧ (globals p' = globals p
     ∨ (∃ m, globals p' = set_last_mtime m (globals p))
     ∨ ∃ m, globals p' =
            set_last_mtime m
              (merged (select (NewerThan (_last_id (globals p))) (db (world p)))
                      (globals p))).
Proof.
  destruct p as [[d s m u] [c l lm st] tr]. cbn.
  destruct m as [m|], lm as [m0|], s; split_run; split; eauto.
Qed.

Lemma cache_bounded_set_last_mtime m (g : Globals) :
  cache_bounded (set_last_mtime m g) ↔ cache_bounded g.
Proof. reflexivity. Qed.

Lemma apply_op_cache_bounded environ (o : Op) (p : Proc) :
  cache_bounded (globals p) → cache_bounded (globals (apply_op environ p o)).
Proof.
  intros Hg. destruct o as [|i|form|w]; unfold apply_op.
  - destruct (load_initial_cases p) as (p' & Hr & _ & [Hg'|[m Hg']]);
      rewrite Hr; simpl; rewrite Hg'.
    + exact Hg.
    + apply cache_bounded_installed, select_sorted.
  - destruct (poll_iteration_cases i p) as (_ & [->|[[m ->]|[m ->]]]).
    + exact Hg.
    + exact Hg.
    + apply cache_bounded_set_last_mtime, cache_bounded_merged;
        [apply select_sorted|exact Hg].
  - by rewrite submit_globals.
  - exact Hg.
Qed.

(** C6: each of the operations that assign to the cache state (the initial
    load, a pass of the poller, the submit handler), and any change of the
    world around them, keeps [_last_id] at or above the id of every cached
    entry; so does every sequence of them. *)
Theorem last_id_bounds_cache environ (ops : list Op) (p : Proc) :
  cache_bounded (globals p) →
  cache_bounded (globals (foldl (apply_op environ) p ops)).
Proof.
  revert p. induction ops as [|o ops IH]; intros p Hg; simpl.
  - exact Hg.
  - apply IH. by apply apply_op_cache_bounded.
Qed.

Lemma last_id_bounds_cache_witness :
  cache_bounded
    (globals (foldl (apply_op ∅) (fresh_proc empty_world)
                    [OpLoad; OpSubmit alice;
                     OpWorld (mkWorld one_entry_table DbUp (Some 2) clock);
                     OpPoll 10])).
Proof. apply (last_id_bounds_cache ∅). constructor. Defined.

(** ** What the code does where it leaves the specification *)

(** C7: evaluated on a first, valid submission to an empty guestbook with
    the cache in use.  The entry is written to the table with id 1, the
    update of the cache raises [UnboundLocalError], which is logged, and the
    read that follows is served the cache as it was: empty. *)
Theorem submitted_entry_missing_from_next_read :
  let p1 := (run (handle ∅ 10 (submit ∅ alice)) (fresh_proc empty_world)).2 in
  USE_CACHE ∅ = true
  ∧ (run (handle ∅ 10 (submit ∅ alice)) (fresh_proc empty_world)).1
    = inr (Redirect "index")
  ∧ entries (db (world p1)) = [alice_entry]
  ∧ EvLogException "Failed to update cache on submit" UnboundLocalError ∈ trace p1
  ∧ _entries_cache (globals p1) = []
  ∧ run (handle ∅ 10 (index ∅)) p1 = (inr (Render "index.html" []), p1).
Proof.
  vm_compute. repeat split.
  apply list_elem_of_further, list_elem_of_here.
Qed.

(** More generally: with the cache in use, no submission changes what the
    next read is served. *)
Lemma read_after_submit_unchanged environ form (p : Proc) :
  USE_CACHE environ = true →
  (run (index environ) (run (submit environ form) p).2).1
  = (run (index environ) p).1.
Proof.
  intros Hc. unfold index. rewrite Hc.
  pose proof (submit_globals environ form p) as Hg.
  destruct (run (submit environ form) p) as [r [w g tr]].
  destruct p as [w0 g0 tr0]. simpl in *. by subst g.
Qed.

(** C3: evaluated on two first requests that take turns.  Both handlers read
    [_poller_started] as [False] before either assigns it, and each goes on
    to call [Thread.start]: two pollers run in the process. *)
Theorem racing_first_requests_start_two_pollers :
  let pl := pool_run ∅ 10 racing_first_requests (fresh_pool empty_world) in
  threads_started (proc pl) = 2%nat
  ∧ pollers pl = [(10, poll_iteration 10); (10, poll_iteration 10)]
  ∧ responses pl = [Render "index.html" []; Render "index.html" []].
Proof. vm_compute. repeat split. Qed.

(** C1: evaluated on the same start followed by one submission.  Each of the
    two pollers queries for the ids above 0 before the other has merged, so
    each puts the submitted entry in front of the cache, and the next read
    is served the entry twice. *)
Theorem racing_pollers_serve_an_entry_twice :
  let pl := pool_run ∅ 10 racing_pollers (fresh_pool empty_world) in
  entries (db (world (proc pl))) = [alice_entry]
  ∧ responses pl =
    [Render "index.html" []; Render "index.html" []; Redirect "index";
     Render "index.html" [CachedRow alice_entry; CachedRow alice_entry]].
Proof. vm_compute. repeat split. Qed.

(** C2: evaluated on a guestbook of a hundred entries to which another
    process adds one.  With the cache in use the first read is served 100
    rows and, once the poller has merged the new entry, the second read is
    served 101. *)
Theorem cached_read_is_not_capped :
  let pl := pool_run ∅ 10 read_after_merge
              (fresh_pool (mkWorld hundred_entries DbUp (Some 1) clock)) in
  USE_CACHE ∅ = true
  ∧ length <$> (rows_of <$> responses pl) = [100; 101]%nat.
Proof. vm_compute. repeat split. Qed.

(** ** With loads and passes of the poller that do not overlap *)

Lemma max_id_ge (l : list Entry) (e : Entry) : e ∈ l → id e ≤ max_id l.
Proof.
  unfold max_id, ids. induction l as [|x l IH]; intros H.
  - by apply elem_of_nil in H.
  - apply elem_of_cons in H as [->|H]; cbn; [lia|]. specialize (IH H). cbn in IH. lia.
Qed.

Lemma insert_row_unique_ids n m c (t : Table) :
  unique_ids t → unique_ids (insert_row n m c t).1.
Proof.
  unfold unique_ids, ids. simpl. intros H. rewrite fmap_app. simpl.
  apply NoDup_app. split; [exact H|]. split; [|apply NoDup_singleton].
  intros k Hk Hin. apply list_elem_of_singleton in Hin.
  apply list_elem_of_fmap in Hk as (e & -> & He).
  apply max_id_ge in He. lia.
Qed.

Lemma select_unique_ids q (t : Table) :
  unique_ids t → NoDup (ids (select q t)).
Proof.
  unfold unique_ids, ids. intros H. destruct q as [limit|last]; simpl.
  - eapply sublist_NoDup; [|apply fmap_sublist, sublist_take].
    by rewrite order_by_id_desc_perm.
  - rewrite order_by_id_desc_perm.
    eapply sublist_NoDup; [exact H|]. apply fmap_sublist, sublist_filter.
Qed.

Lemma sorted_unique_strictly (l : list Entry) :
  StronglySorted id_desc l → NoDup (ids l) → strictly_descending l.
Proof.
  unfold strictly_descending, ids.
  induction 1 as [|a l Hs IH Ha]; intros Hn; [constructor|].
  simpl in Hn. apply NoDup_cons in Hn as [Hnot Hn].
  constructor; [by apply IH|].
  apply Forall_forall. intros b Hb. rewrite Forall_forall in Ha.
  specialize (Ha b Hb). unfold id_desc in Ha. unfold id_above.
  assert (id b ≠ id a); [|lia].
  intros Heq. apply Hnot. rewrite <- Heq. by apply list_elem_of_fmap_2.
Qed.

Lemma select_strictly q (t : Table) :
  unique_ids t → strictly_descending (select q t).
Proof.
  intros H. apply sorted_unique_strictly;
    [apply select_sorted|by apply select_unique_ids].
Qed.

Lemma strictly_descending_merged (rows : list Entry) (g : Globals) :
  strictly_descending rows →
  Forall (λ e, _last_id g < id e) rows →
  cache_bounded g →
  strictly_descending (_entries_cache g) →
  strictly_descending (_entries_cache (merged rows g)).
Proof.
  intros Hr Hgt Hb Hc. destruct rows as [|r0 rows]; [exact Hc|]. cbn.
  change (r0 :: rows ++ _entries_cache g) with ((r0 :: rows) ++ _entries_cache g).
  apply StronglySorted_app. split; [|by split].
  intros a b Ha Hb'. rewrite Forall_forall in Hgt. specialize (Hgt a Ha).
  unfold cache_bounded in Hb. rewrite Forall_forall in Hb. specialize (Hb b Hb').
  unfold id_above. lia.
Qed.

Lemma apply_op_well_kept environ (o : Op) (p : Proc) :
  keeps_key o → well_kept p → well_kept (apply_op environ p o).
Proof.
  intros Ho (Hu & Hb & Hs).
  split; [|split; [by apply apply_op_cache_bounded|]].
  - destruct o as [|i|form|w]; unfold apply_op.
    + destruct (load_initial_cases p) as (p' & Hr & Hw & _).
      rewrite Hr. simpl. by rewrite Hw.
    + by destruct (poll_iteration_cases i p) as [-> _].
    + unfold submit. split_run; try exact Hu.
      destruct p as [[d s m u] g tr]. simpl in Hu.
      destruct s; try exact Hu;
        destruct (USE_CACHE environ); cbn; by apply insert_row_unique_ids.
    + exact Ho.
  - destruct o as [|i|form|w]; unfold apply_op.
    + destruct (load_initial_cases p) as (p' & Hr & _ & [Hg'|[m Hg']]);
        rewrite Hr; simpl; rewrite Hg'; [exact Hs|].
      pose proof (select_strictly (NewestFirst 100) (db (world p)) Hu) as H.
      by destruct (select _ _).
    + destruct (poll_iteration_cases i p) as (_ & [->|[[m ->]|[m ->]]]);
        try exact Hs.
      apply strictly_descending_merged; try assumption.
      * by apply select_strictly.
      * apply select_newer_than_ids.
    + by rewrite submit_globals.
    + exact Hs.
Qed.

(** When no load and no pass of the poller overlaps another and ids are
    unique in the table, what [index] serves from the cache goes strictly
    down in id, whatever was loaded, polled and submitted. *)
Lemma without_overlap_strictly_descending environ (ops : list Op) (p : Proc) :
  Forall keeps_key ops → well_kept p →
  let p' := foldl (apply_op environ) p ops in
  USE_CACHE environ = true →
  ∃ rows, run (index environ) p' = (inr (Render "index.html" (CachedRow <$> rows)), p')
          ∧ strictly_descending rows
          ∧ NoDup (ids rows).
Proof.
  intros Hops Hp. simpl.
  assert (well_kept (foldl (apply_op environ) p ops)) as (_ & _ & Hs).
  { revert p Hp. induction Hops as [|o ops Ho _ IH]; intros p Hp; simpl; [done|].
    apply IH. by apply apply_op_well_kept. }
  intros Hc. exists (_entries_cache (globals (foldl (apply_op environ) p ops))).
  unfold index. rewrite Hc. split; [by destruct (foldl _ _ _)|]. split; [exact Hs|].
  clear -Hs. induction Hs as [|a l _ IH Ha]; [constructor|].
  unfold ids. simpl. apply NoDup_cons. split; [|exact IH].
  intros Hin. apply list_elem_of_fmap in Hin as (b & Heq & Hb).
  rewrite Forall_forall in Ha. specialize (Ha b Hb). unfold id_above in Ha. lia.
Qed.

(** ** Reads and the start of the poller, one request at a time *)

Lemma index_cached environ (p : Proc) :
  USE_CACHE environ = true →
  run (index environ) p
  = (inr (Render "index.html" (CachedRow <$> _entries_cache (globals p))), p).
Proof. intros Hc. unfold index. rewrite Hc. by destruct p. Qed.

Lemma index_direct environ (p : Proc) :
  USE_CACHE environ = false → db_status (world p) = DbUp →
  let rows := select (NewestFirst 100) (db (world p)) in
  run (index environ) p
  = (inr (Render "index.html" (direct_row <$> rows)),
     emit (EvSql (SqlSelect (NewestFirst 100))) p)
    ∧ (length rows ≤ 100)%nat.
Proof.
  intros Hc Hdb. unfold index. rewrite Hc.
  destruct p as [[d s m u] g tr]; simpl in Hdb; subst s. cbn.
  split; [reflexivity|]. rewrite length_take. lia.
Qed.

Lemma second_request_starts_nothing environ POLL_INTERVAL (p : Proc) :
  _poller_started (globals p) = true →
  run (_ensure_poller_started environ POLL_INTERVAL) p = (inr (), p).
Proof.
  intros Hs. destruct p as [w [c l lm st] tr]; simpl in Hs; subst st. reflexivity.
Qed.

Lemma first_request_starts_one environ POLL_INTERVAL (p : Proc) :
  _poller_started (globals p) = false →
  ∃ p', run (_ensure_poller_started environ POLL_INTERVAL) p = (inr (), p')
        ∧ _poller_started (globals p') = true
        ∧ threads_started p' =
          ((if ENABLE_POLLER environ && USE_CACHE environ then 1 else 0)
           + threads_started p)%nat.
Proof.
  intros Hs. destruct p as [[d s m u] [c l lm st] tr]; simpl in Hs; subst st.
  unfold _ensure_poller_started.
  destruct (ENABLE_POLLER environ), (USE_CACHE environ), s, m; split_run;
    eexists; (split; [reflexivity|]); split; reflexivity.
Qed.

Lemma view_starts_nothing environ (r : Request) (p : Proc) :
  let p' := (run (view_of environ r) p).2 in
  globals p' = globals p ∧ threads_started p' = threads_started p.
Proof.
  destruct p as [[d s m u] g tr]. destruct r as [|form]; simpl.
  - unfold index. destruct (USE_CACHE environ), s; split; reflexivity.
  - unfold submit.
    destruct (decide (message_field form = [])); [split; reflexivity|].
    destruct (decide (50 < length (name_field form))%nat); [split; reflexivity|].
    destruct (decide (1000 < length (message_field form))%nat); [split; reflexivity|].
    destruct (USE_CACHE environ), s; split; reflexivity.
Qed.

(** X15: requests served one after the other start the poller once, with
    the first of them, or never. *)
Lemma served_in_turn_start_at_most_one environ POLL_INTERVAL
    (rs : list Request) (w : World) :
  (threads_started (foldl (serve environ POLL_INTERVAL) (fresh_proc w) rs) ≤ 1)%nat.
Proof.
  destruct rs as [|r rs]; [simpl; unfold threads_started, count_events; simpl; lia|].
  simpl.
  assert (∀ r p, _poller_started (globals p) = true →
               _poller_started (globals (serve environ POLL_INTERVAL p r)) = true
               ∧ threads_started (serve environ POLL_INTERVAL p r)
                 = threads_started p) as Hany.
  { clear. intros r p Hs. unfold serve, handle.
    rewrite run_bind, (second_request_starts_nothing _ _ _ Hs).
    destruct (view_starts_nothing environ r p) as [-> ->]. done. }
  destruct (first_request_starts_one environ POLL_INTERVAL (fresh_proc w) eq_refl)
    as (p1 & Hr & Hflag & Hn).
  assert (_poller_started (globals (serve environ POLL_INTERVAL (fresh_proc w) r)) = true
          ∧ (threads_started (serve environ POLL_INTERVAL (fresh_proc w) r) ≤ 1)%nat)
    as [Hf1 Hn1].
  { unfold serve, handle. rewrite run_bind, Hr.
    destruct (view_starts_nothing environ r p1) as [-> ->].
    split; [done|]. rewrite Hn.
    destruct (ENABLE_POLLER environ && USE_CACHE environ);
      unfold threads_started, count_events; simpl; lia. }
  revert Hf1 Hn1. generalize (serve environ POLL_INTERVAL (fresh_proc w) r).
  induction rs as [|r' rs IH]; intros p Hf Hle; simpl; [done|].
  destruct (Hany r' p Hf) as [Hf' Hn']. apply IH; [done|lia].
Qed.

(** ** Along every schedule *)











(** ** Along every schedule, once the hook has run and with one poller *)












(** ** A handler that runs without interruption, as a schedule *)







(** * More of the program *)

(** ** The initial load *)

Lemma newest_first_spec (n : nat) (t : Table) :
  let rows := select (NewestFirst n) t in
  length rows = (n `min` length (entries t))%nat
  ∧ StronglySorted id_desc rows
  ∧ ∃ rest, rows ++ rest ≡ₚ entries t
            ∧ ∀ e c, e ∈ rest → c ∈ rows → id e ≤ id c.
Proof.
  simpl. split; [|split].
  - rewrite length_take. by rewrite (Permutation_length (order_by_id_desc_perm _)).
  - apply (select_sorted (NewestFirst n)).
  - exists (drop n (order_by_id_desc (entries t))). split.
    + rewrite take_drop. apply order_by_id_desc_perm.
    + intros e c He Hc.
      pose proof (order_by_id_desc_sorted (entries t)) as Hs.
      rewrite <- (take_drop n) in Hs.
      apply (StronglySorted_app_1_elem_of _ _ _ _ _ Hs Hc He).
Qed.

Lemma newest_first_head (n : nat) (t : Table) (r0 : Entry) (rows : list Entry) :
  select (NewestFirst n) t = r0 :: rows →
  Forall (λ e, id e ≤ id r0) (entries t) ∧ r0 ∈ entries t.
Proof.
  simpl. intros Ht.
  pose proof (order_by_id_desc_sorted (entries t)) as Hs.
  pose proof (order_by_id_desc_perm (entries t)) as Hp.
  destruct (order_by_id_desc (entries t)) as [|x l]; [by destruct n|].
  destruct n as [|n]; [done|]. simpl in Ht. injection Ht as -> _.
  split.
  - rewrite <- Hp. apply (sorted_head_max _ _ Hs).
  - rewrite <- Hp. apply list_elem_of_here.
Qed.

Lemma load_initial_up (p : Proc) :
  db_status (world p) = DbUp →
  run _load_initial_cache p
  = (inr (),
     mkProc (world p)
            (installed (select (NewestFirst 100) (db (world p)))
                       (st_mtime (world p)) (globals p))
            (EvSql (SqlSelect (NewestFirst 100)) :: trace p)).
Proof.
  intros Hdb. destruct p as [[d s m u] g tr]; simpl in Hdb; subst s.
  unfold installed. cbn.
  destruct (take 100 (order_by_id_desc (entries d))), m; reflexivity.
Qed.

(** X1: when the database can be queried, the initial load does not raise
    and leaves in the cache the newest rows of the table, a hundred at most,
    newest first: the cache and the rows left out make up the table, and no
    row left out has an id above a cached one.  [_last_id] becomes the
    largest id of the table (it stays as it was when the table is empty) and
    [_last_mtime] what [stat] reports, [None] when [stat] fails. *)
Theorem initial_load_installs_newest (p : Proc) :
  db_status (world p) = DbUp →
  ∃ p',
    run _load_initial_cache p = (inr (), p')
    ∧ world p' = world p
    ∧ length (_entries_cache (globals p'))
      = (100 `min` length (entries (db (world p))))%nat
    ∧ StronglySorted id_desc (_entries_cache (globals p'))
    ∧ (∃ rest, _entries_cache (globals p') ++ rest ≡ₚ entries (db (world p))
               ∧ ∀ e c, e ∈ rest → c ∈ _entries_cache (globals p') → id e ≤ id c)
    ∧ (entries (db (world p)) = [] → _last_id (globals p') = _last_id (globals p))
    ∧ (entries (db (world p)) ≠ [] →
       _last_id (globals p') ∈ ids (entries (db (world p)))
       ∧ Forall (λ e, id e ≤ _last_id (globals p')) (entries (db (world p))))
    ∧ _last_mtime (globals p') = st_mtime (world p)
    ∧ _poller_started (globals p') = _poller_started (globals p).
Proof.
  intros Hdb. eexists. split; [by apply load_initial_up|].
  destruct (newest_first_spec 100 (db (world p))) as (Hlen & Hs & Hrest).
  pose proof (newest_first_head 100 (db (world p))) as Hhead.
  unfold installed. cbn [world globals].
  destruct (select (NewestFirst 100) (db (world p))) as [|r0 rows] eqn:Hsel.
  - split_and!; try done.
    intros Hne. exfalso. simpl in Hlen.
    destruct (entries (db (world p))); [done|]. simpl in Hlen. lia.
  - destruct (Hhead r0 rows eq_refl) as [Hall Hin].
    split_and!; try done.
    + intros Hnil. rewrite Hnil in Hin. by apply elem_of_nil in Hin.
    + intros _. split; [|done]. by apply (list_elem_of_fmap_2 id).
Qed.

Lemma initial_load_installs_newest_witness :
  ∃ p', run _load_initial_cache
            (fresh_proc (mkWorld hundred_entries DbUp None clock)) = (inr (), p')
        ∧ length (_entries_cache (globals p')) = 100%nat
        ∧ _last_mtime (globals p') = None.
Proof.
  destruct (initial_load_installs_newest
              (fresh_proc (mkWorld hundred_entries DbUp None clock)) eq_refl)
    as (p' & Hr & _ & Hlen & _ & _ & _ & _ & Hm & _).
  exists p'. split; [exact Hr|]. split; [|exact Hm].
  rewrite Hlen. reflexivity.
Defined.

Lemma load_initial_survives : survives _load_initial_cache.
Proof. cbn. repeat first [ progress cbn | intro | done | case_match ]. Qed.

(** X2: the initial load raises at no step, whatever the state of the
    database and of the file; when the database cannot be opened or queried
    it logs the exception and leaves the cache state, [_last_mtime]
    included, as it was. *)
Theorem failed_initial_load_is_logged (p : Proc) :
  db_status (world p) ≠ DbUp →
  survives _load_initial_cache
  ∧ run _load_initial_cache p
    = (inr (),
       emit (EvLogException "Failed to load initial cache" OperationalError) p).
Proof.
  intros Hdb. split; [apply load_initial_survives|].
  destruct p as [[d s m u] g tr]; simpl in Hdb. by destruct s.
Qed.

Lemma failed_initial_load_is_logged_witness :
  globals (run _load_initial_cache
               (fresh_proc (mkWorld one_entry_table DbConnectFails (Some 1) clock))).2
  = init_globals.
Proof.
  rewrite (proj2 (failed_initial_load_is_logged
                    (fresh_proc (mkWorld one_entry_table DbConnectFails (Some 1) clock))
                    ltac:(discriminate))).
  reflexivity.
Defined.

(** ** More on the passes of the poller *)

(** X3: with a negative interval every pass of the poller ends in the
    [ValueError] of [time.sleep], which line 142 raises outside the [try]
    statement: the loop stops in its first pass. *)
Theorem negative_interval_stops_poller (i : Z) (p : Proc) :
  i < 0 →
  (run (poll_iteration i) p).1 = inl ValueError
  ∧ ∀ fuel, (run (_poll_db i (S fuel)) p).1 = inl ValueError.
Proof.
  intros Hi.
  assert ((run (poll_iteration i) p).1 = inl ValueError) as Hpass.
  { destruct p as [[d s m u] [c l lm st] tr].
    destruct m as [m|], lm as [m0|], s; split_run; try lia; reflexivity. }
  split; [exact Hpass|]. intros fuel.
  change (_poll_db i (S fuel)) with (poll_iteration i ≫= λ _, _poll_db i fuel).
  rewrite run_bind. by destruct (run (poll_iteration i) p) as [[e|[]] p']; simpl in *.
Qed.

Lemma negative_interval_stops_poller_witness :
  (run (_poll_db (-1) 3) in_step).1 = inl ValueError.
Proof. apply (negative_interval_stops_poller (-1) in_step). lia. Defined.

(** X4: a pass that finds the marker changed and can query the database
    catches up with the table: afterwards no row of the table has an id
    above [_last_id], and every row that had one is in the cache. *)
Theorem changed_marker_pass_catches_up (i m m0 : Z) (p : Proc) :
  0 ≤ i →
  st_mtime (world p) = Some m →
  _last_mtime (globals p) = Some m0 →
  m ≠ m0 →
  db_status (world p) = DbUp →
  let p' := (run (poll_iteration i) p).2 in
  Forall (λ e, id e ≤ _last_id (globals p')) (entries (db (world p)))
  ∧ (∀ e, e ∈ entries (db (world p)) → _last_id (globals p) < id e →
          e ∈ _entries_cache (globals p')).
Proof.
  intros Hi Hm Hl Hne Hdb. cbv zeta.
  rewrite (poll_new_marker i m m0 p Hi Hm Hl Hne Hdb). cbn [snd globals emit with_globals].
  set (last := _last_id (globals p)).
  pose proof (select_sorted (NewerThan last) (db (world p))) as Hs.
  pose proof (select_newer_than last (db (world p))) as Hp.
  assert (∀ e, e ∈ entries (db (world p)) → last < id e →
               e ∈ select (NewerThan last) (db (world p))) as Hin.
  { intros e He Hlt. rewrite Hp. by apply list_elem_of_filter. }
  destruct (select (NewerThan last) (db (world p))) as [|r0 rows] eqn:Hsel.
  - split.
    + apply Forall_forall. intros e He.
      destruct (decide (last < id e)) as [Hlt|]; [|simpl; fold last; lia].
      by apply Hin, elem_of_nil in Hlt.
    + intros e He Hlt. by apply Hin, elem_of_nil in Hlt.
  - pose proof (sorted_head_max _ _ Hs) as Hmax. rewrite Forall_forall in Hmax.
    split.
    + apply Forall_forall. intros e He. cbn. fold last.
      destruct (decide (last < id e)) as [Hlt|]; [|lia].
      specialize (Hmax e (Hin e He Hlt)). simpl in Hmax. lia.
    + intros e He Hlt. cbn.
      change (e ∈ (r0 :: rows) ++ _entries_cache (globals p)).
      apply elem_of_app. left. by apply Hin.
Qed.

Lemma changed_marker_pass_catches_up_witness :
  let p := with_world (touched (Some 2) (inserted bob (world in_step))) in_step in
  Forall (λ e, id e ≤ _last_id (globals (run (poll_iteration 10) p).2))
         (entries (db (world p))).
Proof.
  apply (changed_marker_pass_catches_up 10 2 1); try reflexivity; lia.
Defined.

(** X5: a pass of the poller, whatever its interval and whatever happens in
    it, writes nothing to the database, only ever adds rows in front of the
    cache, never lowers [_last_id] and leaves [_poller_started] alone. *)
Theorem pass_only_prepends (i : Z) (p : Proc) :
  let p' := (run (poll_iteration i) p).2 in
  world p' = world p
  ∧ (∃ rows, _entries_cache (globals p') = rows ++ _entries_cache (globals p))
  ∧ _last_id (globals p) ≤ _last_id (globals p')
  ∧ _poller_started (globals p') = _poller_started (globals p).
Proof.
  cbv zeta. destruct (poll_iteration_cases i p) as (Hw & [Hg|[[m Hg]|[m Hg]]]);
    rewrite Hg; (split; [exact Hw|]).
  - split_and!; try done. by exists [].
  - split_and!; try done. by exists [].
  - simpl. destruct (order_by_id_desc _) as [|r0 rows]; cbn.
    + split_and!; try done. by exists [].
    + split_and!; try done; [by exists (r0 :: rows)|lia].
Qed.

(** X6: once a pass has read the marker with the database in order, the
    next pass over an unchanged file issues no query and changes nothing:
    the marker is recorded whether or not the query brought rows. *)
Theorem second_pass_is_idle (i m : Z) (p : Proc) :
  0 ≤ i →
  st_mtime (world p) = Some m →
  db_status (world p) = DbUp →
  let p1 := (run (poll_iteration i) p).2 in
  run (poll_iteration i) p1 = (inr (), emit (EvSleep i) p1).
Proof.
  intros Hi Hm Hdb. cbv zeta.
  assert (st_mtime (world (run (poll_iteration i) p).2) = Some m
          ∧ _last_mtime (globals (run (poll_iteration i) p).2) = Some m) as [Hm1 Hl1].
  { destruct (_last_mtime (globals p)) as [m0|] eqn:Hl.
    - destruct (decide (m = m0)) as [->|Hne].
      + by rewrite (poll_same_marker i m0 p Hi Hm Hl).
      + by rewrite (poll_new_marker i m m0 p Hi Hm Hl Hne Hdb).
    - by rewrite (poll_first_marker i m p Hi Hm Hl). }
  by apply (poll_same_marker i m).
Qed.

Lemma second_pass_is_idle_witness :
  let p := with_world (touched (Some 2) (inserted bob (world in_step))) in_step in
  count_events is_sql (run (poll_iteration 10) (run (poll_iteration 10) p).2).2
  = count_events is_sql (run (poll_iteration 10) p).2.
Proof.
  cbv zeta.
  rewrite (second_pass_is_idle 10 2
             (with_world (touched (Some 2) (inserted bob (world in_step))) in_step));
    [reflexivity|lia|reflexivity|reflexivity].
Defined.

(** X7: a pass whose query fails records nothing, so the query is made
    again: whatever the state, a pass made while the database is out of
    order followed by a pass with the database as it is leaves the cache
    state that the second pass alone would have left. *)
Theorem failed_pass_is_made_up (i : Z) (s : DbStatus) (p : Proc) :
  s ≠ DbUp →
  let failed := (run (poll_iteration i) (with_world (with_status s (world p)) p)).2 in
  globals (run (poll_iteration i) (with_world (world p) failed)).2
  = globals (run (poll_iteration i) p).2.
Proof.
  intros Hs. destruct p as [[d s0 m u] [c l lm st] tr].
  destruct m as [m|], lm as [m0|], s, s0; try done; split_run; try done.
Qed.

Lemma failed_pass_is_made_up_witness :
  let p := with_world (touched (Some 2) (inserted bob (world in_step))) in_step in
  let failed := (run (poll_iteration 10)
                     (with_world (with_status DbExecuteFails (world p)) p)).2 in
  ids (_entries_cache (globals failed)) = [1]
  ∧ ids (_entries_cache (globals (run (poll_iteration 10)
                                      (with_world (world p) failed)).2)) = [2; 1].
Proof.
  cbv zeta. split; [reflexivity|].
  rewrite (failed_pass_is_made_up 10 DbExecuteFails
             (with_world (touched (Some 2) (inserted bob (world in_step))) in_step));
    [reflexivity|discriminate].
Defined.

(** ** More on the submit handler *)

Lemma name_field_nonempty (form : gmap string pystr) : name_field form ≠ [].
Proof. unfold name_field, str_or. by destruct (strip _). Qed.

(** X8: whatever the form and the state, [submit] removes and changes no
    row of the table and adds one at most; the row it adds carries the
    stripped name (or "Anonymous"), the stripped message and the time of
    the clock, an id above every id of the table, a name of 1 to 50
    characters and a message of 1 to 1000. *)
Theorem submit_appends_one_valid_row environ form (p : Proc) :
  let p' := (run (submit environ form) p).2 in
  db_status (world p') = db_status (world p)
  ∧ st_mtime (world p') = st_mtime (world p)
  ∧ (db (world p') = db (world p)
     ∨ ∃ k, entries (db (world p'))
            = entries (db (world p))
                ++ [mkEntry k (name_field form) (message_field form) (utcnow (world p))]
            ∧ Forall (λ e, id e < k) (entries (db (world p)))
            ∧ (1 ≤ length (name_field form) ≤ 50)%nat
            ∧ (1 ≤ length (message_field form) ≤ 1000)%nat).
Proof.
  cbv zeta. unfold submit.
  destruct (decide (message_field form = [])) as [|Hm]; [by split_and!; try left|].
  destruct (decide (50 < length (name_field form))%nat) as [|Hn];
    [by split_and!; try left|].
  destruct (decide (1000 < length (message_field form))%nat) as [|Hl];
    [by split_and!; try left|].
  destruct p as [[d s m u] g tr].
  destruct s; try (by split_and!; try left).
  destruct (USE_CACHE environ); cbn; (split; [done|]); (split; [done|]); right;
    eexists; (split; [reflexivity|]); split_and!; try lia.
  all: try (apply Forall_forall; intros e He; apply max_id_ge in He; lia).
  all: pose proof (name_field_nonempty form);
    destruct (name_field form), (message_field form); simpl in *; try done; lia.
Qed.

Lemma submit_db_down environ form (p : Proc) :
  message_field form ≠ [] →
  (length (name_field form) ≤ 50)%nat →
  (length (message_field form) ≤ 1000)%nat →
  db_status (world p) ≠ DbUp →
  run (submit environ form) p = (inl OperationalError, p).
Proof.
  intros Hm Hn Hl Hdb. unfold submit.
  destruct (decide (message_field form = [])) as [|_]; [contradiction|].
  destruct (decide (50 < length (name_field form))%nat) as [|_]; [lia|].
  destruct (decide (1000 < length (message_field form))%nat) as [|_]; [lia|].
  destruct p as [[d s m u] g tr]; simpl in Hdb. by destruct s.
Qed.

(** X9: a submission that passes the checks while the database cannot be
    opened or written raises the database's exception out of the handler:
    nothing is flashed, nothing is stored and the state is as before. *)
Theorem valid_submit_raises_when_db_down environ form (p : Proc) :
  message_field form ≠ [] →
  (length (name_field form) ≤ 50)%nat →
  (length (message_field form) ≤ 1000)%nat →
  db_status (world p) ≠ DbUp →
  run (submit environ form) p = (inl OperationalError, p)
  ∧ count_events is_flash (run (submit environ form) p).2 = count_events is_flash p
  ∧ db (world (run (submit environ form) p).2) = db (world p).
Proof.
  intros Hm Hn Hl Hdb. by rewrite (submit_db_down environ form p Hm Hn Hl Hdb).
Qed.

Lemma valid_submit_raises_when_db_down_witness :
  run (submit ∅ bob) (with_world (with_status DbExecuteFails (world in_step)) in_step)
  = (inl OperationalError,
     with_world (with_status DbExecuteFails (world in_step)) in_step).
Proof.
  apply (valid_submit_raises_when_db_down ∅ bob
           (with_world (with_status DbExecuteFails (world in_step)) in_step)).
  - vm_compute. discriminate.
  - vm_compute. lia.
  - vm_compute. lia.
  - discriminate.
Defined.

(** X10: when [submit] returns it has flashed one message and answers with
    a redirect to the index page; the message is of category "success" when
    a row was added to the table and of category "error" when none was. *)
Theorem submit_answers environ form (p p' : Proc) (r : Response) :
  run (submit environ form) p = (inr r, p') →
  r = Redirect "index"
  ∧ count_events is_flash p' = S (count_events is_flash p)
  ∧ ∃ msg category,
      EvFlash msg category ∈ trace p'
      ∧ ((category = "success"
          ∧ length (entries (db (world p'))) = S (length (entries (db (world p)))))
         ∨ (category = "error" ∧ world p' = world p)).
Proof.
  intros Hr.
  assert (∀ msg, (@inr Exn Response (Redirect "index"), emit (EvFlash msg "error") p)
                 = (inr r, p') →
                 r = Redirect "index"
                 ∧ count_events is_flash p' = S (count_events is_flash p)
                 ∧ ∃ msg category,
                     EvFlash msg category ∈ trace p'
                     ∧ ((category = "success"
                         ∧ length (entries (db (world p')))
                           = S (length (entries (db (world p)))))
                        ∨ (category = "error" ∧ world p' = world p))) as Hrej.
  { intros msg [= <- <-]. split; [done|]. split; [done|].
    exists msg, "error". split; [apply list_elem_of_here|]. by right. }
  destruct (decide (message_field form = [])) as [Hbad|Hm].
  { unfold submit in Hr. rewrite decide_True in Hr by done.
    exact (Hrej _ Hr). }
  destruct (decide (50 < length (name_field form))%nat) as [Hbad|Hn].
  { unfold submit in Hr. rewrite decide_False, decide_True in Hr by done.
    exact (Hrej _ Hr). }
  destruct (decide (1000 < length (message_field form))%nat) as [Hbad|Hl].
  { unfold submit in Hr.
    rewrite decide_False, decide_False, decide_True in Hr by done.
    exact (Hrej _ Hr). }
  clear Hrej.
  assert (length (name_field form) ≤ 50)%nat as Hn' by lia.
  assert (length (message_field form) ≤ 1000)%nat as Hl' by lia.
  destruct (decide (db_status (world p) = DbUp)) as [Hdb|Hdb].
  - rewrite (submit_accepts environ form p Hm Hn' Hl' Hdb) in Hr.
    injection Hr as <- <-. split; [done|]. split.
    + destruct (USE_CACHE environ); reflexivity.
    + eexists _, "success". split; [apply list_elem_of_here|]. left.
      split; [done|]. destruct (USE_CACHE environ); cbn;
        rewrite length_app; simpl; lia.
  - by rewrite (submit_db_down environ form p Hm Hn' Hl' Hdb) in Hr.
Qed.

Lemma submit_answers_witness :
  count_events is_flash (run (submit ∅ bob) in_step).2
  = S (count_events is_flash in_step).
Proof.
  apply (submit_answers ∅ bob in_step (run (submit ∅ bob) in_step).2
                        (Redirect "index")).
  reflexivity.
Defined.

(** X11: [submit] assigns no module-level name: the cache, [_last_id],
    [_last_mtime] and [_poller_started] are after it what they were before;
    with the cache in use, each row it stores comes with a logged
    [UnboundLocalError], the outcome of the update of lines 205-209. *)
Theorem submit_assigns_no_global environ form (p : Proc) :
  let p' := (run (submit environ form) p).2 in
  globals p' = globals p
  ∧ (USE_CACHE environ = true →
     db (world p') ≠ db (world p) →
     EvLogException "Failed to update cache on submit" UnboundLocalError ∈ trace p').
Proof.
  cbv zeta. split; [apply submit_globals|]. intros Hc.
  unfold submit. rewrite Hc.
  destruct (decide (message_field form = [])); [done|].
  destruct (decide (50 < length (name_field form))%nat); [done|].
  destruct (decide (1000 < length (message_field form))%nat); [done|].
  destruct p as [[d s m u] g tr]. destruct s; try done.
  intros _. cbn. apply list_elem_of_further, list_elem_of_here.
Qed.

(** ** More on the reads *)

(** X12: while the database cannot be opened or queried, a read with the
    cache in use is served the cache and touches nothing, and a read with
    the cache turned off raises the database's exception: there is no
    falling back from one path to the other. *)
Theorem read_when_db_down environ (p : Proc) :
  db_status (world p) ≠ DbUp →
  run (index environ) p
  = if USE_CACHE environ
    then (inr (Render "index.html" (CachedRow <$> _entries_cache (globals p))), p)
    else (inl OperationalError, p).
Proof.
  intros Hdb. unfold index. destruct p as [[d s m u] g tr]; simpl in Hdb.
  destruct (USE_CACHE environ); [done|]. by destruct s.
Qed.

Lemma read_when_db_down_witness :
  run (index cache_off) while_db_down = (inl OperationalError, while_db_down)
  ∧ run (index ∅) while_db_down
    = (inr (Render "index.html" [CachedRow alice_entry]), while_db_down).
Proof.
  split.
  - rewrite (read_when_db_down cache_off while_db_down) by discriminate.
    reflexivity.
  - rewrite (read_when_db_down ∅ while_db_down) by discriminate.
    reflexivity.
Defined.

(** X13: with the cache turned off and the database in order, a read is
    served the newest rows of the table, a hundred at most, newest first,
    each as its three columns: the rows served and the rows left out make
    up the table, and no row left out has an id above a row served.  The
    read assigns no module-level name. *)
Theorem direct_read_newest_hundred environ (p : Proc) :
  USE_CACHE environ = false →
  db_status (world p) = DbUp →
  ∃ rows,
    run (index environ) p
    = (inr (Render "index.html" (direct_row <$> rows)),
       emit (EvSql (SqlSelect (NewestFirst 100))) p)
    ∧ length rows = (100 `min` length (entries (db (world p))))%nat
    ∧ StronglySorted id_desc rows
    ∧ ∃ rest, rows ++ rest ≡ₚ entries (db (world p))
              ∧ ∀ e c, e ∈ rest → c ∈ rows → id e ≤ id c.
Proof.
  intros Hc Hdb. exists (select (NewestFirst 100) (db (world p))).
  split; [by apply index_direct|]. apply newest_first_spec.
Qed.

Lemma direct_read_newest_hundred_witness :
  ∃ rows,
    (run (index cache_off) (fresh_proc (mkWorld hundred_entries DbUp None clock))).1
    = inr (Render "index.html" (direct_row <$> rows))
    ∧ length rows = 100%nat.
Proof.
  destruct (direct_read_newest_hundred cache_off
              (fresh_proc (mkWorld hundred_entries DbUp None clock)))
    as (rows & Hr & Hlen & _); [reflexivity|reflexivity|].
  exists rows. rewrite Hr, Hlen. split; reflexivity.
Defined.

(** ** More on the hook *)

Lemma hook_survives environ POLL_INTERVAL :
  survives (_ensure_poller_started environ POLL_INTERVAL).
Proof.
  unfold _ensure_poller_started.
  destruct (USE_CACHE environ), (ENABLE_POLLER environ);
    cbn; repeat first [ progress cbn | intro | done | case_match ].
Qed.

(** X14: the hook raises at no step, whatever the state of the database.
    Run on a process whose flag is not set, it sets the flag and writes
    nothing to the database; it starts a poller, with the configured
    interval, exactly when ENABLE_POLLER and USE_CACHE are both on; with
    USE_CACHE off it issues no query and leaves the cache state alone. *)
Theorem first_request_runs_the_hook environ POLL_INTERVAL (p : Proc) :
  _poller_started (globals p) = false →
  survives (_ensure_poller_started environ POLL_INTERVAL)
  ∧ ∃ p',
      run (_ensure_poller_started environ POLL_INTERVAL) p = (inr (), p')
      ∧ _poller_started (globals p') = true
      ∧ world p' = world p
      ∧ forked (_ensure_poller_started environ POLL_INTERVAL) p
        = (if ENABLE_POLLER environ && USE_CACHE environ then [POLL_INTERVAL] else [])
      ∧ (USE_CACHE environ = false →
         p' = with_globals (set_poller_started true (globals p)) p).
Proof.
  intros Hs. split; [apply hook_survives|].
  destruct p as [[d s m u] [c l lm st] tr]; simpl in Hs; subst st.
  unfold _ensure_poller_started.
  destruct (ENABLE_POLLER environ), (USE_CACHE environ), s, m; split_run;
    eexists; split_and!; try reflexivity; done.
Qed.

Lemma first_request_runs_the_hook_witness :
  forked (_ensure_poller_started cache_off 10) (fresh_proc empty_world) = []
  ∧ forked (_ensure_poller_started ∅ 10) (fresh_proc empty_world) = [10].
Proof.
  split.
  - destruct (first_request_runs_the_hook cache_off 10 (fresh_proc empty_world) eq_refl)
      as (_ & p' & _ & _ & _ & Hf & _). exact Hf.
  - destruct (first_request_runs_the_hook ∅ 10 (fresh_proc empty_world) eq_refl)
      as (_ & p' & _ & _ & _ & Hf & _). exact Hf.
Defined.

(** ** Along schedules: the entries of the lemmas above *)



(** ** How the operations compose *)

Lemma filter_none {A : Type} (P : A → Prop) `{∀ x, Decision (P x)} (l : list A) :
  Forall (λ x, ¬ P x) l → filter P l = [].
Proof.
  induction 1 as [|x l Hx _ IH]; [done|]. by rewrite filter_cons_False.
Qed.

Lemma select_newer_after_insert (last : Z) n m c (t : Table) :
  Forall (λ e, id e ≤ last) (entries t) →
  last < (insert_row n m c t).2 →
  select (NewerThan last) (insert_row n m c t).1
  = [mkEntry (insert_row n m c t).2 n m c].
Proof.
  intros Hold Hnew. simpl in *.
  rewrite filter_app, filter_none.
  - rewrite filter_cons_True by (simpl; lia). simpl.
    apply Permutation_singleton_r, order_by_id_desc_perm.
  - eapply Forall_impl; [exact Hold|]. simpl. lia.
Qed.

(** X18: read-your-write, one pass late.  When the cache has kept up with
    the table, an accepted submission followed by a pass of the poller that
    finds the marker changed puts the stored row, with its id and time, at
    the front of the cache, [_last_id] at its id, and the row first in the
    next cached read. *)
Theorem submitted_row_cached_by_next_pass environ form (i m m0 : Z) (p : Proc) :
  message_field form ≠ [] →
  (length (name_field form) ≤ 50)%nat →
  (length (message_field form) ≤ 1000)%nat →
  db_status (world p) = DbUp →
  Forall (λ e, id e ≤ _last_id (globals p)) (entries (db (world p))) →
  _last_id (globals p)
  ≤ Z.max (max_id (entries (db (world p)))) (sqlite_sequence (db (world p))) →
  _last_mtime (globals p) = Some m0 →
  m ≠ m0 →
  0 ≤ i →
  let p1 := (run (submit environ form) p).2 in
  let p2 := with_world (touched (Some m) (world p1)) p1 in
  let p3 := (run (poll_iteration i) p2).2 in
  ∃ k,
    let row := mkEntry k (name_field form) (message_field form) (utcnow (world p)) in
    entries (db (world p3)) = entries (db (world p)) ++ [row]
    ∧ _entries_cache (globals p3) = row :: _entries_cache (globals p)
    ∧ _last_id (globals p3) = k
    ∧ (USE_CACHE environ = true →
       (run (index environ) p3).1
       = inr (Render "index.html" (CachedRow <$> row :: _entries_cache (globals p)))).
Proof.
  intros Hm Hn Hl Hdb Hsync Hlast Hmt Hne Hi. cbv zeta.
  rewrite (submit_accepts environ form p Hm Hn Hl Hdb). cbn [snd].
  set (q := with_world (touched (Some m) (inserted form (world p)))
              (mkProc (world p) (globals p)
                 (EvFlash "Thanks — your message was posted!" "success"
                  :: (if USE_CACHE environ
                      then [EvLogException "Failed to update cache on submit"
                                           UnboundLocalError]
                      else [])
                  ++ EvSql (SqlInsert (name_field form) (message_field form)
                                      (utcnow (world p))) :: trace p))).
  match goal with
  | |- context [run (poll_iteration i) ?p2] => replace p2 with q
  end.
  2: { subst q. by destruct (USE_CACHE environ), p. }
  assert (st_mtime (world q) = Some m) as Hq1 by done.
  assert (_last_mtime (globals q) = Some m0) as Hq2 by done.
  assert (db_status (world q) = DbUp) as Hq3 by done.
  rewrite (poll_new_marker i m m0 q Hi Hq1 Hq2 Hne Hq3).
  cbn [snd globals world emit with_globals]. subst q.
  cbn [globals world with_world touched inserted db].
  pose proof (select_newer_after_insert (_last_id (globals p))
                (name_field form) (message_field form) (utcnow (world p))
                (db (world p)) Hsync) as Hsel.
  rewrite Hsel by (simpl; lia).
  eexists. cbn. split_and!; try reflexivity.
  - simpl in Hlast. lia.
  - intros Hc. unfold index. rewrite Hc. reflexivity.
Qed.

Lemma submitted_row_cached_by_next_pass_witness :
  ∃ k,
    _entries_cache
      (globals (run (poll_iteration 10)
                    (with_world (touched (Some 2) (world (run (submit ∅ bob) in_step).2))
                                (run (submit ∅ bob) in_step).2)).2)
    = mkEntry k (py "Bob") (py "hello") clock :: [alice_entry].
Proof.
  destruct (submitted_row_cached_by_next_pass ∅ bob 10 2 1 in_step)
    as (k & _ & Hc & _).
  - vm_compute. discriminate.
  - vm_compute. lia.
  - vm_compute. lia.
  - reflexivity.
  - repeat constructor. vm_compute. discriminate.
  - vm_compute. discriminate.
  - reflexivity.
  - lia.
  - lia.
  - exists k. exact Hc.
Defined.

(** X19: straight after an initial load that went through, the page is the
    same with the cache as without it: the rows a cached read is served
    carry, in the same order, the columns of the rows a direct read is
    served. *)
Theorem cached_page_is_direct_page_after_load env_on env_off (p : Proc) :
  USE_CACHE env_on = true →
  USE_CACHE env_off = false →
  db_status (world p) = DbUp →
  let p' := (run _load_initial_cache p).2 in
  ∃ cached direct,
    (run (index env_on) p').1 = inr (Render "index.html" cached)
    ∧ (run (index env_off) p').1 = inr (Render "index.html" direct)
    ∧ columns <$> cached = columns <$> direct.
Proof.
  intros Hon Hoff Hdb. cbv zeta.
  rewrite (load_initial_up p Hdb). cbn [snd].
  set (p' := mkProc _ _ _).
  assert (_entries_cache (globals p') = select (NewestFirst 100) (db (world p'))) as Hc.
  { subst p'. unfold installed. cbn [globals world].
    by destruct (select (NewestFirst 100) (db (world p))). }
  eexists _, _. split; [by rewrite (index_cached env_on p' Hon)|].
  split; [by rewrite (proj1 (index_direct env_off p' Hoff Hdb))|].
  rewrite Hc, <- !list_fmap_compose. by apply list_fmap_ext.
Qed.

Lemma cached_page_is_direct_page_after_load_witness :
  ∃ cached direct,
    (run (index ∅) (run _load_initial_cache
                        (fresh_proc (mkWorld hundred_entries DbUp None clock))).2).1
    = inr (Render "index.html" cached)
    ∧ (run (index cache_off)
           (run _load_initial_cache
                (fresh_proc (mkWorld hundred_entries DbUp None clock))).2).1
      = inr (Render "index.html" direct)
    ∧ columns <$> cached = columns <$> direct.
Proof.
  apply (cached_page_is_direct_page_after_load ∅ cache_off
           (fresh_proc (mkWorld hundred_entries DbUp None clock)));
    reflexivity.
Defined.

(** ** The settings that decide on HTTPS and on the cookie *)

Example lower_examples :
  lower (py "TRUE") = py "true"
  ∧ lower (py "Yes") = py "yes"
  ∧ lower (str_of_bool true) = py "true"
  ∧ lower (str_of_bool false) = py "false".
Proof. repeat split. Qed.

Lemma get_None (d : gmap string pystr) key dflt :
  d !! key = None → get d key dflt = dflt.
Proof. unfold get. by intros ->. Qed.

Lemma get_Some (d : gmap string pystr) key dflt (v : pystr) :
  d !! key = Some v → get d key dflt = v.
Proof. unfold get. by intros ->. Qed.

(** X21: the session cookie is marked secure as follows.  With
    SESSION_COOKIE_SECURE absent it is secure exactly outside debug mode.
    With the variable set debug mode plays no part: the cookie is secure
    when the value is "1", "true" or "yes" in whatever letter case and not
    secure otherwise; the empty value, which leaves the forcing of HTTPS to
    debug mode, makes the cookie not secure. *)
Theorem session_cookie_secure_setting (environ : gmap string pystr) (debug : bool) :
  (environ !! "SESSION_COOKIE_SECURE" = None →
   SESSION_COOKIE_SECURE environ debug = negb debug)
  ∧ (∀ v : pystr, environ !! "SESSION_COOKIE_SECURE" = Some v →
          SESSION_COOKIE_SECURE environ debug = SESSION_COOKIE_SECURE environ (negb debug)
          ∧ (SESSION_COOKIE_SECURE environ debug = true ↔ lower v ∈ truthy))
  ∧ (environ !! "SESSION_COOKIE_SECURE" = Some [] →
     environ !! "GUESTBOOK_FORCE_HTTPS" = Some [] →
     SESSION_COOKIE_SECURE environ debug = false
     ∧ _force_https environ debug = negb debug).
Proof.
  unfold SESSION_COOKIE_SECURE. split; [|split].
  - intros H. rewrite (get_None _ _ _ H). by destruct debug.
  - intros v Hv. rewrite !(get_Some _ _ _ _ Hv). split; [done|].
    apply bool_decide_eq_true.
  - intros Hs Hf. rewrite (get_Some _ _ _ _ Hs). split; [done|].
    unfold _force_https. rewrite (get_Some _ _ _ _ Hf). by rewrite decide_True.
Qed.
